(** * RLcycle: value-learning update engine

    A shallow embedding of the n-step aggregation and target-network
    utilities ([rlcycle/common/utils/common_utils.py]), of the three loss
    variants ([rlcycle/dqn_base/loss.py]) and of the training loop
    ([rlcycle/dqn_base/agent.py]).

    Numbers.  Tensors of Python floats are modelled as lists of exact
    rationals ([Q]); equalities between computed numbers are stated with
    [==] ([Qeq]).  Rounding is therefore idealised away; everything else
    (order of evaluation, branch conditions, indices, mutation of shared
    parameter storage) follows the source text. *)

From Stdlib Require Import ZArith QArith Qround Qabs Qpower Lia Lqa.
From stdpp Require Import base list gmap.

Local Open Scope Q_scope.

(** ** Small numeric helpers *)

(** Sum of a list of rationals ([torch.sum] over one axis). *)
Definition Qsum (l : list Q) : Q := foldr Qplus 0 l.
Arguments Qsum : simpl never.

(** [Σ_{i=0}^{n-1} f i]. *)
Definition Qsum_upto (n : nat) (f : nat -> Q) : Q := Qsum (map f (seq 0 n)).

(** Pointwise [Qeq] on tensors. *)
Definition tensor_eq (a b : list Q) : Prop := Forall2 Qeq a b.

(** ** [common_utils.py] *)

Module CommonUtils.

Section Transitions.
Context {State Action : Type}.

(** The five-element list [[state, action, reward, next_state, done]]
    that the agent pushes on its queue and stores in the buffer. *)
Record Transition : Type := mkTransition {
  state : State;
  action : Action;
  reward : Q;
  next_state : State;
  done : bool
}.

(** Variables of the [for] loop of [preprocess_nstep]: [state] and
    [action] are unbound until the first iteration assigns them. *)
Record NStepVars : Type := mkVars {
  v_state : option State;
  v_action : option Action;
  discounted_reward : Q
}.

(** One iteration:
    [state, action, reward, _, _ = transition;
     discounted_reward = reward + gamma * discounted_reward]. *)
Definition nstep_body (gamma : Q) (vars : NStepVars) (t : Transition) : NStepVars :=
  {| v_state := Some (state t);
     v_action := Some (action t);
     discounted_reward := reward t + gamma * discounted_reward vars |}.

(** [for transition in list(reversed(n_step_queue)): ...] *)
Definition nstep_loop (gamma : Q) (n_step_queue : list Transition) : NStepVars :=
  fold_left (nstep_body gamma) (rev n_step_queue)
    {| v_state := None; v_action := None; discounted_reward := 0 |}.

(** [preprocess_nstep(n_step_queue, gamma)].  [None] stands for the
    [IndexError] of [n_step_queue[-1]] on an empty queue (and for the
    unbound loop variables, which cannot occur after that check). *)
Definition preprocess_nstep (n_step_queue : list Transition) (gamma : Q)
  : option Transition :=
  match last n_step_queue with
  | None => None
  | Some newest =>
      let last_state := next_state newest in
      let done' := done newest in
      let vars := nstep_loop gamma n_step_queue in
      match v_state vars, v_action vars with
      | Some st, Some ac =>
          Some (mkTransition st ac (discounted_reward vars) last_state done')
      | _, _ => None
      end
  end.

(** Spec side of the aggregation (section 4.1): the value obtained by
    walking a sequence of transitions in the given order, accumulating
    [discounted = reward_i + gamma * discounted]. *)
Inductive spec_walk (gamma : Q) : list Transition -> Q -> Q -> Prop :=
| spec_walk_done d : spec_walk gamma [] d d
| spec_walk_step t ts d d' :
    spec_walk gamma ts (reward t + gamma * d) d' ->
    spec_walk gamma (t :: ts) d d'.

(** Rewards of a window, oldest first. *)
Definition rewards_of (w : list Transition) : list Q := map reward w.

End Transitions.

Arguments Transition : clear implicits.
Arguments NStepVars : clear implicits.

(** [np2tensor] applied to the boolean column [dones] (as in
    [_preprocess_experience]): [torch.FloatTensor] turns [True] / [False]
    into [1.0] / [0.0]. *)
Definition bool_to_float (b : bool) : Q := if b then 1 else 0.

Definition np2tensor_bool (np_arr : list bool) : list Q :=
  map bool_to_float np_arr.

(** *** Target synchronisation

    A network parameter is a mutable object: [parameters()] yields the
    parameter objects in order (each object once), and [param.data] is the
    tensor currently held by the object.  The store maps object identities
    to their data; a network is the ordered list of its parameter
    objects, so two networks may share storage. *)

Abbreviation loc := nat (only parsing).
Abbreviation tensor := (list Q) (only parsing).
Abbreviation store := (gmap nat (list Q)) (only parsing).
Abbreviation network := (list nat) (only parsing).

(** [t * c] for a tensor [t] and a Python float [c]. *)
Definition tensor_scale (t : tensor) (c : Q) : tensor := map (fun x => x * c) t.

(** [a + b] on tensors of the same size; tensors of different sizes raise
    (broadcasting between unequal shapes is not modelled). *)
Definition tensor_add (a b : tensor) : option tensor :=
  if decide (length a = length b) then Some (zip_with Qplus a b) else None.

(** [target_param.data.copy_(src)]: overwrites the data held by the object
    [t] in place; the object must exist and [src] must have its size
    (the broadcast of a one-element [src] is not modelled). *)
Definition copy_ (σ : store) (t : loc) (src : tensor) : option store :=
  old ← σ !! t;
  if decide (length old = length src) then Some (<[t := src]> σ) else None.

(** [for param, target_param in zip(...): body], threading the store;
    [zip] stops at the shorter list. *)
Fixpoint update_loop (body : store -> loc -> loc -> option store)
    (params targets : list loc) (σ : store) : option store :=
  match params, targets with
  | p :: params', t :: targets' =>
      σ' ← body σ p t; update_loop body params' targets' σ'
  | _, _ => Some σ
  end.

(** [target_param.data.copy_(param.data * tau + target_param.data * (1.0 - tau))] *)
Definition soft_update_body (tau : Q) (σ : store) (p t : loc) : option store :=
  pd ← σ !! p;
  td ← σ !! t;
  v ← tensor_add (tensor_scale pd tau) (tensor_scale td (1 - tau));
  copy_ σ t v.

(** [target_param.data.copy_(param.data)] *)
Definition hard_update_body (σ : store) (p t : loc) : option store :=
  pd ← σ !! p;
  copy_ σ t pd.

Definition soft_update (net target_network : network) (tau : Q) (σ : store)
  : option store :=
  update_loop (soft_update_body tau) net target_network σ.

Definition hard_update (net target_network : network) (σ : store)
  : option store :=
  update_loop hard_update_body net target_network σ.

(** Stores that hold pointwise equal numbers at the same objects. *)
Definition store_eq (σ1 σ2 : store) : Prop :=
  forall l : loc, option_Forall2 tensor_eq (σ1 !! l) (σ2 !! l).

(** The size of the tensor held by an object, if allocated. *)
Definition shape (σ : store) (l : loc) : option nat := length <$> σ !! l.

(** A loop body that writes its target object only, and keeps sizes. *)
Definition writes_target (body : store -> loc -> loc -> option store) : Prop :=
  forall (σ σ' : store) (p t : loc), body σ p t = Some σ' ->
    (forall l : loc, l <> t -> σ' !! l = σ !! l) /\
    (forall l : loc, shape σ' l = shape σ l).

(** Both parameters of a pair are allocated and have the same size. *)
Definition paired_shapes (σ : store) (p t : loc) : Prop :=
  exists pd td, σ !! p = Some pd /\ σ !! t = Some td /\ length pd = length td.

(** Aligned networks: parameter lists of equal length, paired
    parameters allocated with equal sizes. *)
Definition aligned (net target_network : network) (σ : store) : Prop :=
  length net = length target_network /\
  Forall2 (paired_shapes σ) net target_network.

(** The two networks own separate parameter objects. *)
Definition separate (net target_network : network) : Prop :=
  forall l : loc, l ∈ net -> l ∉ target_network.

(** Spec side of the testable property of section 8:
    [Σ_{i=0}^{n-1} gamma^i * r_{n-1-i}] for rewards [r] given oldest first. *)
Definition spec_newest_first_sum (gamma : Q) (r : list Q) : Q :=
  let n := length r in
  Qsum_upto n (fun i => gamma ^ Z.of_nat i * nth (n - 1 - i) r 0).

(** The n-step return with the oldest reward undiscounted:
    [Σ_{i=0}^{n-1} gamma^i * r_i]. *)
Definition oldest_first_sum (gamma : Q) (r : list Q) : Q :=
  Qsum_upto (length r) (fun i => gamma ^ Z.of_nat i * nth i r 0).

End CommonUtils.

(** ** [dqn_base/loss.py] *)

Module Loss.

(** [hyper_params.gamma ** hyper_params.n_step] *)
Definition n_step_gamma (gamma : Q) (n_step : Z) : Q := gamma ^ n_step.

(** One entry of [rewards + (1 - dones) * n_step_gamma * bootstrap]. *)
Definition bootstrap_target (reward done_f nsg bootstrap : Q) : Q :=
  reward + (1 - done_f) * nsg * bootstrap.

(** [DQNLoss.__call__], line 29: [rewards], [dones] and [next_q] are
    columns of shape (batch, 1). *)
Definition dqn_target_q (rewards dones : list Q) (nsg : Q) (next_q : list Q)
  : list Q :=
  zip_with (fun rd nq => bootstrap_target rd.1 rd.2 nsg nq)
           (zip rewards dones) next_q.

(** [QRLoss.__call__], line 61: [next_z] has shape (batch, num_quantiles);
    the columns [rewards] and [dones] are broadcast along each row. *)
Definition qr_target_z (rewards dones : list Q) (nsg : Q) (next_z : list (list Q))
  : list (list Q) :=
  zip_with (fun rd row => map (bootstrap_target rd.1 rd.2 nsg) row)
           (zip rewards dones) next_z.

(** Spec side of the shared target formula (section 4.3), for a sample
    with reward [r] and terminal flag [d]:
    [target = reward + (1 - done) * gamma^n * bootstrap], and a terminal
    sample has the reward as target. *)
Definition spec_target_shape (r : Q) (d : bool) (gamma : Q) (n_step : Z)
    (bootstrap target : Q) : Prop :=
  target == r + (1 - CommonUtils.bool_to_float d) * gamma ^ n_step * bootstrap /\
  (d = true -> target == r).

(** The attributes of the categorical network that the loss reads.  The
    network class is not part of the excerpt; its attributes are taken as
    given. *)
Record C51Network : Type := mkC51 {
  num_atoms : nat;
  v_min : Q;
  v_max : Q;
  delta_z : Q;
  support : list Q
}.

(** The data model of the spec (section 3): [num_atoms] support points
    spanning [[v_min, v_max]] with uniform spacing [delta_z]. *)
Definition support_ok (net : C51Network) : Prop :=
  (2 <= num_atoms net)%nat /\
  0 < delta_z net /\
  v_max net - v_min net == inject_Z (Z.of_nat (num_atoms net) - 1) * delta_z net /\
  length (support net) = num_atoms net /\
  forall i : nat, (i < num_atoms net)%nat ->
    nth i (support net) 0 == v_min net + inject_Z (Z.of_nat i) * delta_z net.

(** [CategoricalLoss.__call__], line 106: the support (shape (num_atoms,))
    is broadcast against the columns [rewards] and [dones]. *)
Definition categorical_target_z_raw (net : C51Network) (rewards dones : list Q)
    (nsg : Q) : list (list Q) :=
  map (fun rd => map (bootstrap_target rd.1 rd.2 nsg) (support net))
      (zip rewards dones).

(** [torch.clamp(x, min=lo, max=hi)] on one entry: [min(max(x, lo), hi)]. *)
Definition clamp (lo hi x : Q) : Q :=
  let y := if Qlt_le_dec x lo then lo else x in
  if Qlt_le_dec hi y then hi else y.

(** [CategoricalLoss.__call__], line 107. *)
Definition categorical_target_z (net : C51Network) (rewards dones : list Q)
    (nsg : Q) : list (list Q) :=
  map (map (clamp (v_min net) (v_max net)))
      (categorical_target_z_raw net rewards dones nsg).

(** [QRLoss.quantile_huber_loss] on one entry:
    [torch.where(x.abs() < k, 0.5 * x.pow(2), k * (x.abs() - 0.5 * k))]. *)
Definition huber (k x : Q) : Q :=
  if Qlt_le_dec (Qabs x) k then (1 # 2) * x ^ 2
  else k * (Qabs x - (1 # 2) * k).

(** [QRLoss.quantile_huber_loss(x, k=1.0)], elementwise on a tensor. *)
Definition quantile_huber_loss (x : list Q) (k : Q) : list Q := map (huber k) x.

(** *** The categorical projection *)

(** [out.index_add_(0, index, source)] on a flat tensor: for every
    position [j], [out[index[j]] += source[j]], accumulating.  An index
    outside [0 .. len(out) - 1] raises. *)
Fixpoint index_add_ (out : list Q) (index : list Z) (source : list Q)
  : option (list Q) :=
  match index, source with
  | i :: index', s :: source' =>
      if decide (0 <= i < Z.of_nat (length out))%Z then
        old ← out !! Z.to_nat i;
        index_add_ (<[Z.to_nat i := old + s]> out) index' source'
      else None
  | [], [] => Some out
  | _, _ => None
  end.

(** [offset]: [linspace(0, (B - 1) * num_atoms, B).long()] expanded along
    the atoms, i.e. row [i] holds [i * num_atoms] in every column. *)
Definition offset (batch_size natoms : nat) : list (list Z) :=
  map (fun i => replicate natoms (Z.of_nat (i * natoms))) (seq 0 batch_size).

(** [t.view(-1)] of a (batch, atoms) tensor, and its inverse for a row
    width [w]. *)
Definition flat {A : Type} (t : list (list A)) : list A := concat t.

Fixpoint rows {A : Type} (batch_size w : nat) (t : list A) : list (list A) :=
  match batch_size with
  | O => []
  | S b => take w t :: rows b w (drop w t)
  end.

(** Elementwise helpers on (batch, atoms) tensors.  [zip2d] is applied to
    tensors of one shape; on unequal shapes, where the tensor operation
    raises, it cuts to the shorter one. *)
Definition map2d {A B : Type} (f : A -> B) (t : list (list A)) : list (list B) :=
  map (map f) t.

Definition zip2d {A B C : Type} (f : A -> B -> C)
    (s : list (list A)) (t : list (list B)) : list (list C) :=
  zip_with (zip_with f) s t.

(** [CategoricalLoss.dist_projection(network, next_z, target_z, offset)]. *)
Definition dist_projection (net : C51Network)
    (next_z target_z : list (list Q)) (offs : list (list Z))
  : option (list (list Q)) :=
  let b := map2d (fun tz => (tz - v_min net) / delta_z net) target_z in
  let l := map2d Qfloor b in
  let u := map2d Qceiling b in
  let batch_size := length next_z in
  let width := match next_z with row :: _ => length row | [] => O end in
  let proj_dist := replicate (length (flat next_z)) 0 in
  proj_dist1 ← index_add_ proj_dist (flat (zip2d Z.add l offs))
                 (flat (zip2d Qmult next_z
                          (zip2d (fun ui bi => inject_Z ui - bi) u b)));
  proj_dist2 ← index_add_ proj_dist1 (flat (zip2d Z.add u offs))
                 (flat (zip2d Qmult next_z
                          (zip2d (fun bi li => bi - inject_Z li) b l)));
  Some (rows batch_size width proj_dist2).

(** Line 122 on one entry: the position of a target value on the support
    grid, [(target_z - v_min) / delta_z]. *)
Definition grid_position (net : C51Network) (tz : Q) : Q :=
  (tz - v_min net) / delta_z net.

(** [x] is an integer. *)
Definition integral (x : Q) : bool := Qeq_bool (inject_Z (Qfloor x)) x.

(** The mass of a next-state row [nz] carried by the atoms whose target
    (row [tz]) does not lie exactly on a support point. *)
Definition kept_mass (net : C51Network) (nz tz : list Q) : Q :=
  Qsum (zip_with (fun p t => if integral (grid_position net t) then 0 else p)
                 nz tz).

(** Sum of the [n] entries of a flat tensor from position [s] on. *)
Definition seg_sum (s n : nat) (out : list Q) : Q := Qsum (take n (drop s out)).

(** An index lies in the segment of [n] entries starting at [s]. *)
Definition in_seg (s n : nat) (i : Z) : Prop :=
  (Z.of_nat s <= i < Z.of_nat s + Z.of_nat n)%Z.

(** What one [index_add_] entry contributes to a segment. *)
Definition seg_part (s n : nat) (i : Z) (v : Q) : Q :=
  if decide (in_seg s n i) then v else 0.

(** Index rows and source rows of a (batch, atoms) tensor, from batch row
    [k] on: one source per index, and the indices of each row fall into
    the segment of that row. *)
Inductive row_struct (n : nat) : nat -> list (list Z) -> list (list Q) -> Prop :=
| row_struct_nil k : row_struct n k [] []
| row_struct_cons k irow srow idxs srcs :
    length irow = length srow ->
    Forall (in_seg (k * n) n) irow ->
    row_struct n (S k) idxs srcs ->
    row_struct n k (irow :: idxs) (srow :: srcs).

(** Rows of the tensors built by [dist_projection] from one row of
    [next_z] and one row of [target_z]. *)
Definition l_row (net : C51Network) (tz : list Q) : list Z :=
  map Qfloor (map (grid_position net) tz).

Definition u_row (net : C51Network) (tz : list Q) : list Z :=
  map Qceiling (map (grid_position net) tz).

Definition lower_source_row (net : C51Network) (nz tz : list Q) : list Q :=
  zip_with Qmult nz
    (zip_with (fun ui bi => inject_Z ui - bi) (u_row net tz)
              (map (grid_position net) tz)).

Definition upper_source_row (net : C51Network) (nz tz : list Q) : list Q :=
  zip_with Qmult nz
    (zip_with (fun bi li => bi - inject_Z li) (map (grid_position net) tz)
              (l_row net tz)).

(** The input of [dist_projection] as [CategoricalLoss.__call__] builds
    it: one target row per next-state row, [num_atoms] entries per row,
    targets clamped into [[v_min, v_max]]. *)
Definition projection_input_ok (net : C51Network)
    (next_z target_z : list (list Q)) : Prop :=
  length target_z = length next_z /\
  Forall (fun row => length row = num_atoms net) next_z /\
  Forall (fun row => length row = num_atoms net /\
                     Forall (fun tz => v_min net <= tz /\ tz <= v_max net) row)
         target_z.

(** [QRLoss.__call__], lines 63-68, for one sample: [distance] is
    [target_z - z_dists], each Huber term is weighted by
    [|tau - (distance < 0)|], and the weighted terms are averaged over the
    quantiles ([torch.mean(..., dim=1)]).  The quantile fractions
    [network.tau] belong to the network, which is not part of the excerpt:
    they are taken as given, one per quantile, the same for every
    sample. *)
Definition qr_distance (target_z z_dists : list Q) : list Q :=
  zip_with Qminus target_z z_dists.

Definition qr_weight (tau d : Q) : Q :=
  Qabs (tau - (if Qlt_le_dec d 0 then 1 else 0)).

Definition qr_terms (taus target_z z_dists : list Q) : list Q :=
  let distance := qr_distance target_z z_dists in
  zip_with Qmult (quantile_huber_loss distance 1)
                 (zip_with qr_weight taus distance).

Definition qr_sample_loss (taus target_z z_dists : list Q) : Q :=
  let terms := qr_terms taus target_z z_dists in
  Qsum terms / inject_Z (Z.of_nat (length terms)).

(** The per-sample losses of a batch. *)
Definition qr_element_wise_loss (taus : list Q)
    (target_z z_dists : list (list Q)) : list Q :=
  zip_with (qr_sample_loss taus) target_z z_dists.

End Loss.

(** ** [dqn_base/agent.py] *)

Module Agent.
Import CommonUtils.

(** [collections.deque(maxlen=n)] *)
Record Deque (A : Type) : Type := mkDeque {
  items : list A;
  maxlen : nat
}.
Arguments mkDeque {A} _ _.
Arguments items {A} _.
Arguments maxlen {A} _.

Definition deque_new {A : Type} (n : nat) : Deque A := mkDeque [] n.

Definition deque_len {A : Type} (d : Deque A) : nat := length (items d).

(** [d.append(x)]: a full bounded deque discards its oldest (leftmost)
    element; a deque of capacity 0 stays empty. *)
Definition deque_append {A : Type} (d : Deque A) (x : A) : Deque A :=
  if decide (maxlen d = O) then d
  else if decide (length (items d) = maxlen d)
       then mkDeque (drop 1 (items d) ++ [x]) (maxlen d)
       else mkDeque (items d ++ [x]) (maxlen d).

(** The fields of [hyper_params] and [experiment_info] read by the agent. *)
Record HyperParams : Type := mkHyperParams {
  n_step : nat;
  gamma : Q;
  update_starting_point : Z;
  train_freq : Z;
  use_per : bool
}.

Record ExperimentInfo : Type := mkExperimentInfo {
  total_num_episodes : nat;
  render_train : bool;
  log_wandb : bool;
  test_interval : Z
}.

(** [self.use_n_step = self.hyper_params.n_step > 1] *)
Definition use_n_step (hp : HyperParams) : bool := (1 <? n_step hp)%nat.

(** The access contract of the replay buffer (an external collaborator):
    [add], [len], and the state changes of [sample] and
    [update_priorities], whose results are opaque here. *)
Class ReplayBuffer (B T : Type) : Type := {
  rb_add : B -> T -> B;
  rb_len : B -> Z;
  rb_sample : B -> B;
  rb_update_priorities : B -> B
}.

(** Calls made to the collaborators, in program order. *)
Inductive Event (T : Type) : Type :=
| EvReset | EvRender | EvSelectAction | EvEnvStep
| EvAdd (t : T)
| EvSample | EvUpdateModel | EvUpdatePriorities | EvDecayEpsilon
| EvPrint | EvWriteLog | EvTest | EvSaveParams.
Arguments EvReset {T}.
Arguments EvRender {T}.
Arguments EvSelectAction {T}.
Arguments EvEnvStep {T}.
Arguments EvSample {T}.
Arguments EvUpdateModel {T}.
Arguments EvUpdatePriorities {T}.
Arguments EvDecayEpsilon {T}.
Arguments EvPrint {T}.
Arguments EvWriteLog {T}.
Arguments EvTest {T}.
Arguments EvSaveParams {T}.
Arguments EvAdd {T} _.

Definition is_add {T} (e : Event T) : bool :=
  match e with EvAdd _ => true | _ => false end.
Definition is_sample {T} (e : Event T) : bool :=
  match e with EvSample => true | _ => false end.
Definition is_update_model {T} (e : Event T) : bool :=
  match e with EvUpdateModel => true | _ => false end.
Definition is_decay_epsilon {T} (e : Event T) : bool :=
  match e with EvDecayEpsilon => true | _ => false end.

Definition is_env_step {T} (e : Event T) : bool :=
  match e with EvEnvStep => true | _ => false end.
Definition is_update_priorities {T} (e : Event T) : bool :=
  match e with EvUpdatePriorities => true | _ => false end.
Definition is_test {T} (e : Event T) : bool :=
  match e with EvTest => true | _ => false end.
Definition is_save_params {T} (e : Event T) : bool :=
  match e with EvSaveParams => true | _ => false end.

(** Number of events of a kind in a trace. *)
Definition count {T} (p : Event T -> bool) (tr : list (Event T)) : nat :=
  length (List.filter p tr).

(** The transitions passed to [replay_buffer.add], in order. *)
Fixpoint added {T} (tr : list (Event T)) : list T :=
  match tr with
  | [] => []
  | EvAdd t :: tr' => t :: added tr'
  | _ :: tr' => added tr'
  end.

Section Train.
Context {State Action B : Type}.
Context `{RB : ReplayBuffer B (Transition State Action)}.

Abbreviation Tr := (Transition State Action).

(** What the environment and the action selector produce in one pass of
    the [while] loop: the selected action and the result of [env.step]. *)
Record EnvStep : Type := mkEnvStep {
  e_action : Action;
  e_reward : Q;
  e_next_state : State;
  e_done : bool
}.

(** One scripted episode: the state returned by [env.reset()] and the
    successive results of [env.step]. *)
Record Episode : Type := mkEpisode {
  init_state : State;
  steps : list EnvStep
}.

(** The mutable fields of the agent ([transition_queue],
    [replay_buffer], [update_step]), the locals of [train] that survive
    a loop pass ([step], [state], [episode_reward]), and the calls made
    so far. *)
Record AgentState : Type := mkAgent {
  transition_queue : Deque Tr;
  replay_buffer : B;
  update_step : Z;
  step : Z;
  cur_state : State;
  episode_reward : Q;
  trace : list (Event Tr)
}.

Definition emit (e : Event Tr) (a : AgentState) : AgentState :=
  mkAgent (transition_queue a) (replay_buffer a) (update_step a) (step a)
          (cur_state a) (episode_reward a) (trace a ++ [e]).

Definition set_queue (q : Deque Tr) (a : AgentState) : AgentState :=
  mkAgent q (replay_buffer a) (update_step a) (step a)
          (cur_state a) (episode_reward a) (trace a).

Definition set_buffer (b : B) (a : AgentState) : AgentState :=
  mkAgent (transition_queue a) b (update_step a) (step a)
          (cur_state a) (episode_reward a) (trace a).

(** [DQNBaseAgent.__init__], lines 36-38, with the locals of [train]
    before the first episode ([step = 0]). *)
Definition init (hp : HyperParams) (b : B) (s0 : State) : AgentState :=
  mkAgent (deque_new (n_step hp)) b 0%Z 0%Z s0 0 [].

(** [self.replay_buffer.add(...)] *)
Definition buffer_add (t : Tr) (a : AgentState) : AgentState :=
  emit (EvAdd t) (set_buffer (rb_add (replay_buffer a) t) a).

(** Lines 101-110. *)
Definition store_transition (hp : HyperParams) (t : Tr) (a : AgentState)
  : option AgentState :=
  if use_n_step hp then
    let q := deque_append (transition_queue a) t in
    let a1 := set_queue q a in
    if decide (deque_len q = n_step hp) then
      n_step_transition ← preprocess_nstep (items q) (gamma hp);
      Some (buffer_add n_step_transition a1)
    else Some a1
  else Some (buffer_add t a).

(** Lines 116-129: sample, update the model, count the update, feed the
    priorities back when PER is on, decay epsilon. *)
Definition do_update (hp : HyperParams) (a : AgentState) : AgentState :=
  let a1 := emit EvSample (set_buffer (rb_sample (replay_buffer a)) a) in
  let a2 := emit EvUpdateModel a1 in
  let a3 := mkAgent (transition_queue a2) (replay_buffer a2)
                    (update_step a2 + 1)%Z (step a2) (cur_state a2)
                    (episode_reward a2) (trace a2) in
  let a4 := if use_per hp
            then emit EvUpdatePriorities
                   (set_buffer (rb_update_priorities (replay_buffer a3)) a3)
            else a3 in
  emit EvDecayEpsilon a4.

(** Lines 114-129.  [step % train_freq] raises for [train_freq = 0], and
    is only evaluated once the buffer is warm. *)
Definition maybe_update (hp : HyperParams) (a : AgentState)
  : option AgentState :=
  if decide (update_starting_point hp <= rb_len (replay_buffer a))%Z then
    if decide (train_freq hp = 0)%Z then None
    else if decide (step a mod train_freq hp = 0)%Z
         then Some (do_update hp a)
         else Some a
  else Some a.

(** The transition built at line 102 (and passed to [add] at line 110)
    from the current state and the result of [env.step]. *)
Definition built (o : EnvStep) (a : AgentState) : Tr :=
  mkTransition (cur_state a) (e_action o) (e_reward o)
               (e_next_state o) (e_done o).

(** The transition that lines 101-110 pass to [replay_buffer.add], if
    any. *)
Definition stored (hp : HyperParams) (o : EnvStep) (a : AgentState)
  : option Tr :=
  if use_n_step hp then
    let q := deque_append (transition_queue a) (built o a) in
    if decide (deque_len q = n_step hp)
    then preprocess_nstep (items q) (gamma hp) else None
  else Some (built o a).

(** Lines 93-112 of the [while not done] loop: act, step the
    environment, count the step, store the transition. *)
Definition collect (hp : HyperParams) (ei : ExperimentInfo)
    (o : EnvStep) (a : AgentState) : option AgentState :=
  let a0 := if render_train ei then emit EvRender a else a in
  let a1 := emit EvEnvStep (emit EvSelectAction a0) in
  let t := built o a1 in
  let a2 := mkAgent (transition_queue a1) (replay_buffer a1) (update_step a1)
                    (step a1 + 1)%Z (cur_state a1)
                    (episode_reward a1 + e_reward o) (trace a1) in
  a3 ← store_transition hp t a2;
  Some (mkAgent (transition_queue a3) (replay_buffer a3) (update_step a3)
                (step a3) (e_next_state o)
                (episode_reward a3) (trace a3)).

(** One pass of the [while not done] loop, lines 93-129. *)
Definition train_iteration (hp : HyperParams) (ei : ExperimentInfo)
    (o : EnvStep) (a : AgentState) : option AgentState :=
  a4 ← collect hp ei o a;
  maybe_update hp a4.

(** [while not done: ...] over the scripted results of [env.step]; the
    loop ends with the first [done].  A script that ends before the
    episode does yields [None]. *)
Fixpoint episode_loop (hp : HyperParams) (ei : ExperimentInfo)
    (script : list EnvStep) (a : AgentState) : option AgentState :=
  match script with
  | [] => None
  | o :: script' =>
      a' ← train_iteration hp ei o a;
      if e_done o then Some a' else episode_loop hp ei script' a'
  end.

(** Lines 87-90: [state = env.reset(); losses = []; episode_reward = 0;
    done = False]. *)
Definition episode_start (s0 : State) (a : AgentState) : AgentState :=
  emit EvReset
    (mkAgent (transition_queue a) (replay_buffer a) (update_step a) (step a)
             s0 0 (trace a)).

(** Lines 131-154; [episode_i % test_interval] raises for
    [test_interval = 0]. *)
Definition episode_end (ei : ExperimentInfo) (episode_i : Z) (a : AgentState)
  : option AgentState :=
  let a1 := emit EvPrint a in
  let a2 := if log_wandb ei then emit EvWriteLog a1 else a1 in
  if decide (test_interval ei = 0)%Z then None
  else if decide (episode_i mod test_interval ei = 0)%Z then
    let a3 := emit EvTest a2 in
    let a4 := if log_wandb ei then emit EvWriteLog a3 else a3 in
    Some (emit EvSaveParams a4)
  else Some a2.

(** [for episode_i in range(total_num_episodes): ...], from episode
    number [episode_i] on, one script per episode. *)
Fixpoint episodes (hp : HyperParams) (ei : ExperimentInfo) (episode_i : Z)
    (scripts : list Episode) (a : AgentState) : option AgentState :=
  match scripts with
  | [] => Some a
  | ep :: scripts' =>
      a1 ← episode_loop hp ei (steps ep) (episode_start (init_state ep) a);
      a2 ← episode_end ei episode_i a1;
      episodes hp ei (episode_i + 1)%Z scripts' a2
  end.

(** [DQNBaseAgent.train]: [total_num_episodes] episodes are run. *)
Definition train (hp : HyperParams) (ei : ExperimentInfo)
    (scripts : list Episode) (a : AgentState) : option AgentState :=
  episodes hp ei 0%Z (take (total_num_episodes ei) scripts) a.


(** The window holds [n_step] transitions. *)
Definition queue_full (hp : HyperParams) (a : AgentState) : Prop :=
  maxlen (transition_queue a) = n_step hp /\
  deque_len (transition_queue a) = n_step hp.

(** The counters of the loop agree with the calls made so far: one
    [sample], one [decay_epsilon] (and, with PER, one
    [update_priorities]) per [update_model]; [update_step] counts the
    model updates and [step] the environment steps. *)
Definition counters_ok (hp : HyperParams) (a : AgentState) : Prop :=
  update_step a = Z.of_nat (count is_update_model (trace a)) /\
  count is_sample (trace a) = count is_update_model (trace a) /\
  count is_decay_epsilon (trace a) = count is_update_model (trace a) /\
  count is_update_priorities (trace a)
  = (if use_per hp then count is_update_model (trace a) else O) /\
  step a = Z.of_nat (count is_env_step (trace a)).

(** Spec side of the update gate (section 4.5), on the state in which
    the gate is evaluated. *)
Definition spec_update_due (hp : HyperParams) (a : AgentState) : Prop :=
  (update_starting_point hp <= rb_len (replay_buffer a))%Z /\
  (train_freq hp | step a)%Z.

End Train.

Arguments EnvStep : clear implicits.
Arguments Episode : clear implicits.
Arguments AgentState : clear implicits.

(** A plain unbounded buffer, used to run the loop on concrete inputs. *)
#[global] Instance list_buffer (T : Type) : ReplayBuffer (list T) T := {
  rb_add b t := b ++ [t];
  rb_len b := Z.of_nat (length b);
  rb_sample b := b;
  rb_update_priorities b := b
}.

End Agent.

(** ** Concrete inputs *)

Module Examples.
Import CommonUtils.

(** The window of section 8: rewards [1, 2, 3], oldest first; states are
    numbered. *)
Definition window123 : list (Transition nat nat) :=
  [ mkTransition 0%nat 0%nat 1 1%nat false;
    mkTransition 1%nat 1%nat 2 2%nat false;
    mkTransition 2%nat 0%nat 3 3%nat true ].

(** A live network with parameters at objects 0 and 1 and a target
    network with parameters at objects 10 and 11. *)
Definition live_net : network := [0%nat; 1%nat].
Definition target_net : network := [10%nat; 11%nat].
Definition store4 : store :=
  <[0%nat := [1; 2]]> (<[1%nat := [3]]>
    (<[10%nat := [5; 6]]> (<[11%nat := [7]]> ∅))).

(** Two networks that share the parameter object 1. *)
Definition tied_live : network := [0%nat; 1%nat].
Definition tied_target : network := [1%nat; 2%nat].
Definition store3 : store :=
  <[0%nat := [1]]> (<[1%nat := [2]]> (<[2%nat := [3]]> ∅)).

(** A categorical network with three atoms on [[0, 2]]. *)
Definition net3 : Loss.C51Network := Loss.mkC51 3 0 2 1 [0; 1; 2].

(** A next-state distribution over the three atoms. *)
Definition next_z3 : list (list Q) := [[1 # 2; 1 # 4; 1 # 4]].

(** The clamped target of [CategoricalLoss.__call__] for one terminal
    sample with reward 1: every entry is 1, a point of the support. *)
Definition terminal_target_z : list (list Q) :=
  Loss.categorical_target_z net3 [1] (np2tensor_bool [true])
    (Loss.n_step_gamma (9 # 10) 3).

(** Targets of which only the last one is a point of the support. *)
Definition mixed_target_z : list (list Q) := [[1 # 2; 3 # 2; 2]].

(** A batch of two rows with all targets strictly between support
    points. *)
Definition next_z_batch : list (list Q) :=
  [[1 # 2; 1 # 4; 1 # 4]; [1 # 3; 1 # 3; 1 # 3]].
Definition off_grid_target_z : list (list Q) :=
  [[1 # 2; 3 # 2; 7 # 4]; [1 # 3; 1 # 2; 5 # 3]].

End Examples.

Module AgentExamples.
Import CommonUtils Agent.

(** Two-step returns, updates from the first stored transition on, at
    every step. *)
Definition hp2 : HyperParams := mkHyperParams 2 (1 # 2) 1 1 false.
Definition ei2 : ExperimentInfo := mkExperimentInfo 2 false false 1.

Definition env_step (r : Q) (s' : nat) (d : bool) : EnvStep nat nat :=
  mkEnvStep 0%nat r s' d.

(** A fresh agent over the list buffer, in environment state 10. *)
Definition agent0 : AgentState nat nat (list (Transition nat nat)) :=
  init hp2 [] 10%nat.

(** Two episodes of two steps each; states 10-12 belong to the first
    episode, states 20-22 to the second. *)
Definition two_episodes : list (Episode nat nat) :=
  [ mkEpisode 10%nat [env_step 1 11%nat false; env_step 2 12%nat true];
    mkEpisode 20%nat [env_step 4 21%nat false; env_step 8 22%nat true] ].


(** An agent whose window is full: two transitions queued, their
    aggregate stored, two steps taken. *)
Definition agent_full : AgentState nat nat (list (Transition nat nat)) :=
  mkAgent (mkDeque [mkTransition 10%nat 0%nat 1 11%nat false;
                    mkTransition 11%nat 0%nat 2 12%nat false] 2)
          [mkTransition 10%nat 0%nat 2 12%nat false]
          1%Z 2%Z 12%nat 3 [].

End AgentExamples.

(** * Properties *)

(** ** Sums of rationals *)

Lemma Qsum_cons (x : Q) (l : list Q) : Qsum (x :: l) = x + Qsum l.
Proof. reflexivity. Qed.

Lemma Qsum_app (l1 l2 : list Q) : Qsum (l1 ++ l2) == Qsum l1 + Qsum l2.
Proof.
  induction l1 as [|x l1 IH]; simpl.
  - change (Qsum []) with 0. lra.
  - rewrite !Qsum_cons, IH. lra.
Qed.

Lemma Qsum_map_ext {A : Type} (f g : A -> Q) (l : list A) :
  (forall x, f x == g x) -> Qsum (map f l) == Qsum (map g l).
Proof.
  intros Hfg. induction l as [|x l IH]; simpl; [reflexivity|].
  rewrite !Qsum_cons, IH, Hfg. reflexivity.
Qed.

Lemma Qsum_map_scale {A : Type} (c : Q) (f : A -> Q) (l : list A) :
  Qsum (map (fun x => c * f x) l) == c * Qsum (map f l).
Proof.
  induction l as [|x l IH]; simpl.
  - change (Qsum []) with 0. lra.
  - rewrite !Qsum_cons, IH. lra.
Qed.

Lemma Qsum_upto_S (n : nat) (f : nat -> Q) :
  Qsum_upto (S n) f == f O + Qsum_upto n (fun i => f (S i)).
Proof.
  unfold Qsum_upto. simpl seq. rewrite map_cons, Qsum_cons.
  rewrite <- seq_shift, map_map. reflexivity.
Qed.

Lemma Qpower_of_nat_S (a : Q) (i : nat) :
  a ^ Z.of_nat (S i) == a * a ^ Z.of_nat i.
Proof.
  rewrite Nat2Z.inj_succ, <- Z.add_1_l.
  rewrite Qpower_plus' by lia. reflexivity.
Qed.

(** ** n-step aggregation *)

Section NStep.
Context {State Action : Type}.
Import CommonUtils.
Implicit Types (w : list (Transition State Action)) (gamma : Q).

(** The loop of [preprocess_nstep] performs the walk of the spec. *)
Lemma nstep_fold_walk gamma w (vars : NStepVars State Action) :
  spec_walk gamma w (discounted_reward vars)
            (discounted_reward (fold_left (nstep_body gamma) w vars)).
Proof.
  revert vars. induction w as [|t w IH]; intros vars; simpl.
  - constructor.
  - constructor. apply (IH (nstep_body gamma vars t)).
Qed.

(** After a non-empty loop the loop variables hold the fields of the
    last transition visited. *)
Lemma nstep_fold_last gamma w (vars : NStepVars State Action) t :
  last w = Some t ->
  v_state (fold_left (nstep_body gamma) w vars) = Some (state t) /\
  v_action (fold_left (nstep_body gamma) w vars) = Some (action t).
Proof.
  revert vars. induction w as [|x w IH]; intros vars Hl; [discriminate|].
  destruct w as [|y w'].
  - simpl in Hl. injection Hl as ->. simpl. auto.
  - simpl fold_left. apply IH. exact Hl.
Qed.

Lemma last_rev_head w : last (rev w) = head w.
Proof.
  destruct w as [|t w]; [reflexivity|].
  simpl. rewrite last_snoc. reflexivity.
Qed.

(** The discounted reward as a right fold over the window, oldest
    first. *)
Lemma nstep_loop_foldr gamma w :
  discounted_reward (nstep_loop gamma w)
  = foldr (fun t acc => reward t + gamma * acc) 0 w.
Proof.
  unfold nstep_loop.
  assert (H : forall l (vars : NStepVars State Action),
    discounted_reward (fold_left (nstep_body gamma) l vars)
    = foldr (fun t acc => reward t + gamma * acc)
            (discounted_reward vars) (rev l)).
  { induction l as [|t l IH]; intros vars; simpl; [reflexivity|].
    rewrite IH, foldr_app. reflexivity. }
  rewrite H, rev_involutive. reflexivity.
Qed.

Lemma foldr_oldest_first gamma w :
  foldr (fun t acc => reward t + gamma * acc) 0 w
  == oldest_first_sum gamma (rewards_of w).
Proof.
  unfold oldest_first_sum, rewards_of.
  induction w as [|t w IH]; simpl foldr.
  - reflexivity.
  - rewrite IH. simpl length. rewrite Qsum_upto_S.
    change (gamma ^ Z.of_nat 0) with 1.
    unfold Qsum_upto.
    rewrite (Qsum_map_ext
               (fun i => gamma ^ Z.of_nat (S i) * nth (S i) (map reward (t :: w)) 0)
               (fun i => gamma * (gamma ^ Z.of_nat i * nth i (map reward w) 0))).
    + rewrite Qsum_map_scale.
      change (nth 0 (map reward (t :: w)) 0) with (reward t). ring.
    + intros i. rewrite Qpower_of_nat_S.
      change (nth (S i) (map reward (t :: w)) 0) with (nth i (map reward w) 0).
      ring.
Qed.

Lemma preprocess_nstep_some gamma w :
  (0 < length w)%nat ->
  exists oldest newest,
    head w = Some oldest /\ last w = Some newest /\
    preprocess_nstep w gamma
    = Some (mkTransition (state oldest) (action oldest)
              (discounted_reward (nstep_loop gamma w))
              (next_state newest) (done newest)).
Proof.
  intros Hlen.
  destruct w as [|t0 w0] eqn:Ew; [simpl in Hlen; lia|]. rewrite <- Ew.
  assert (Hh : head w = Some t0) by (subst w; reflexivity).
  destruct (last w) as [newest|] eqn:El.
  2:{ subst w. apply last_None in El. discriminate. }
  exists t0, newest. split; [exact Hh|]. split; [reflexivity|].
  unfold preprocess_nstep. rewrite El.
  destruct (nstep_fold_last gamma (rev w)
              {| v_state := None; v_action := None; discounted_reward := 0 |}
              t0) as [Hs Ha].
  { rewrite last_rev_head. exact Hh. }
  fold (nstep_loop gamma w) in Hs, Ha. rewrite Hs, Ha. reflexivity.
Qed.
End NStep.

(** ** Claims on [preprocess_nstep] *)

(** C2 (as stated, refuted): on the window with rewards [1, 2, 3] (oldest
    first) and [gamma = 0.9], [preprocess_nstep] returns the reward
    [1 + 0.9 * 2 + 0.81 * 3 = 5.23], whereas the sum
    [Σ gamma^i * r_{n-1-i}] of the claim is [5.61]. *)
Lemma C2_newest_first_counterexample :
  exists t,
    CommonUtils.preprocess_nstep Examples.window123 (9 # 10) = Some t /\
    CommonUtils.reward t == 523 # 100 /\
    CommonUtils.spec_newest_first_sum (9 # 10)
      (CommonUtils.rewards_of Examples.window123) == 561 # 100 /\
    ~ CommonUtils.reward t
      == CommonUtils.spec_newest_first_sum (9 # 10)
           (CommonUtils.rewards_of Examples.window123).
Proof.
  eexists. split; [reflexivity|].
  repeat split; try (vm_compute; reflexivity).
  vm_compute. discriminate.
Qed.

(** C2 (amended): for every window of [n >= 1] transitions with rewards
    [r_0 .. r_{n-1}] (oldest first), [preprocess_nstep] returns a
    transition whose reward is [Σ_{i=0}^{n-1} gamma^i * r_i]: the oldest
    reward carries weight [gamma^0]. *)
Theorem C2_nstep_reward_oldest_first
    {State Action : Type}
    (w : list (CommonUtils.Transition State Action)) (n : nat) (gamma : Q) :
  length w = n -> (0 < n)%nat ->
  exists t,
    CommonUtils.preprocess_nstep w gamma = Some t /\
    CommonUtils.reward t
    == Qsum_upto n (fun i => gamma ^ Z.of_nat i
                             * nth i (CommonUtils.rewards_of w) 0).
Proof.
  intros Hn Hpos. subst n.
  destruct (preprocess_nstep_some gamma w Hpos)
    as (oldest & newest & _ & _ & Hrun).
  eexists. split; [exact Hrun|]. simpl.
  rewrite nstep_loop_foldr, foldr_oldest_first.
  unfold CommonUtils.oldest_first_sum, CommonUtils.rewards_of.
  rewrite length_map. reflexivity.
Qed.

Lemma C2_nstep_reward_oldest_first_witness :
  exists t,
    CommonUtils.preprocess_nstep Examples.window123 (9 # 10) = Some t /\
    CommonUtils.reward t
    == Qsum_upto 3 (fun i => (9 # 10) ^ Z.of_nat i
                     * nth i (CommonUtils.rewards_of Examples.window123) 0).
Proof.
  apply (C2_nstep_reward_oldest_first Examples.window123 3 (9 # 10)).
  - reflexivity.
  - lia.
Defined.

(** C3: for every window of exactly [n >= 1] transitions,
    [preprocess_nstep] returns the state and action of the oldest element,
    the next state and done flag of the newest element, and as reward the
    result of walking the window from the newest element to the oldest
    with [discounted = reward_i + gamma * discounted], starting from 0. *)
Theorem C3_nstep_transition_fields
    {State Action : Type}
    (w : list (CommonUtils.Transition State Action)) (n : nat) (gamma : Q) :
  length w = n -> (0 < n)%nat ->
  exists oldest newest r,
    head w = Some oldest /\ last w = Some newest /\
    CommonUtils.spec_walk gamma (rev w) 0 r /\
    CommonUtils.preprocess_nstep w gamma
    = Some (CommonUtils.mkTransition
              (CommonUtils.state oldest) (CommonUtils.action oldest) r
              (CommonUtils.next_state newest) (CommonUtils.done newest)).
Proof.
  intros Hn Hpos. subst n.
  destruct (preprocess_nstep_some gamma w Hpos)
    as (oldest & newest & Hh & Hl & Hrun).
  exists oldest, newest, (CommonUtils.discounted_reward (CommonUtils.nstep_loop gamma w)).
  repeat split; try assumption.
  unfold CommonUtils.nstep_loop.
  apply (nstep_fold_walk gamma (rev w)
           {| CommonUtils.v_state := None; CommonUtils.v_action := None;
              CommonUtils.discounted_reward := 0 |}).
Qed.

Lemma C3_nstep_transition_fields_witness :
  exists oldest newest r,
    head Examples.window123 = Some oldest /\
    last Examples.window123 = Some newest /\
    CommonUtils.spec_walk (9 # 10) (rev Examples.window123) 0 r /\
    CommonUtils.preprocess_nstep Examples.window123 (9 # 10)
    = Some (CommonUtils.mkTransition
              (CommonUtils.state oldest) (CommonUtils.action oldest) r
              (CommonUtils.next_state newest) (CommonUtils.done newest)).
Proof.
  apply (C3_nstep_transition_fields Examples.window123 3 (9 # 10)).
  - reflexivity.
  - lia.
Defined.

(** ** Further properties of [preprocess_nstep] *)

Section NStepExtras.
Context {State Action : Type}.
Import CommonUtils.
Implicit Types (w : list (Transition State Action)) (gamma : Q).

Lemma foldr_rewards gamma w :
  foldr (fun t acc => reward t + gamma * acc) 0 w
  = foldr (fun r acc => r + gamma * acc) 0 (rewards_of w).
Proof.
  unfold rewards_of. induction w as [|t w IH]; simpl; [|rewrite IH]; reflexivity.
Qed.

Lemma foldr_gamma_one gamma (rs : list Q) :
  gamma == 1 -> foldr (fun r acc => r + gamma * acc) 0 rs == Qsum rs.
Proof.
  intros Hg. induction rs as [|r rs IH]; simpl; [reflexivity|].
  rewrite Qsum_cons, IH, Hg. ring.
Qed.

Lemma foldr_gamma_zero gamma (r : Q) (rs : list Q) :
  gamma == 0 -> foldr (fun r acc => r + gamma * acc) 0 (r :: rs) == r.
Proof. intros Hg. simpl. rewrite Hg. ring. Qed.

End NStepExtras.

(** X5: [preprocess_nstep] fails (the [IndexError] of [n_step_queue[-1]])
    exactly on the empty queue; on every other queue it returns a
    transition. *)
Theorem preprocess_nstep_fails_iff_empty
    {State Action : Type}
    (w : list (CommonUtils.Transition State Action)) (gamma : Q) :
  CommonUtils.preprocess_nstep w gamma = None <-> w = [].
Proof.
  split.
  - intros Hnone. destruct w as [|t w]; [reflexivity|].
    destruct (preprocess_nstep_some gamma (t :: w)) as (? & ? & _ & _ & Hrun).
    { simpl. lia. }
    rewrite Hrun in Hnone. discriminate.
  - intros ->. reflexivity.
Qed.

(** X6: the result of [preprocess_nstep] depends only on the rewards of
    the window, on the state and action of its oldest element and on the
    next state and done flag of its newest element: done flags and states
    inside the window are ignored, so the discounted sum runs through a
    terminal transition that is not the newest one. *)
Theorem preprocess_nstep_ignores_inner_flags
    {State Action : Type}
    (w1 w2 : list (CommonUtils.Transition State Action)) (gamma : Q) :
  CommonUtils.rewards_of w1 = CommonUtils.rewards_of w2 ->
  (fun t => (CommonUtils.state t, CommonUtils.action t)) <$> head w1
  = (fun t => (CommonUtils.state t, CommonUtils.action t)) <$> head w2 ->
  (fun t => (CommonUtils.next_state t, CommonUtils.done t)) <$> last w1
  = (fun t => (CommonUtils.next_state t, CommonUtils.done t)) <$> last w2 ->
  CommonUtils.preprocess_nstep w1 gamma = CommonUtils.preprocess_nstep w2 gamma.
Proof.
  intros Hr Hh Hl.
  assert (Hlen : length w1 = length w2).
  { unfold CommonUtils.rewards_of in Hr.
    rewrite <- (length_map CommonUtils.reward w1), Hr, length_map. reflexivity. }
  destruct (decide (length w1 = 0)%nat) as [Hz|Hnz].
  { destruct w1; [|discriminate]. destruct w2; [reflexivity|discriminate]. }
  destruct (preprocess_nstep_some gamma w1) as (o1 & n1 & Ho1 & Hn1 & Hrun1);
    [lia|].
  destruct (preprocess_nstep_some gamma w2) as (o2 & n2 & Ho2 & Hn2 & Hrun2);
    [lia|].
  rewrite Hrun1, Hrun2. rewrite Ho1, Ho2 in Hh. rewrite Hn1, Hn2 in Hl.
  simpl in Hh, Hl. injection Hh as Hs Ha. injection Hl as Hns Hd.
  rewrite !nstep_loop_foldr, !foldr_rewards, Hr. congruence.
Qed.

Lemma preprocess_nstep_ignores_inner_flags_witness :
  CommonUtils.preprocess_nstep Examples.window123 (9 # 10)
  = CommonUtils.preprocess_nstep
      [ CommonUtils.mkTransition 0%nat 0%nat 1 7%nat true;
        CommonUtils.mkTransition 8%nat 5%nat 2 9%nat true;
        CommonUtils.mkTransition 6%nat 4%nat 3 3%nat true ] (9 # 10).
Proof.
  apply (preprocess_nstep_ignores_inner_flags Examples.window123 _ (9 # 10));
    reflexivity.
Defined.

(** X7: for a non-empty window, with [gamma = 1] the aggregated reward is
    the plain sum of the rewards of the window, and with [gamma = 0] it is
    the reward of the oldest transition alone. *)
Theorem preprocess_nstep_gamma_one_zero
    {State Action : Type}
    (w : list (CommonUtils.Transition State Action)) (gamma : Q) :
  (0 < length w)%nat ->
  exists t oldest,
    CommonUtils.preprocess_nstep w gamma = Some t /\
    head w = Some oldest /\
    (gamma == 1 -> CommonUtils.reward t == Qsum (CommonUtils.rewards_of w)) /\
    (gamma == 0 -> CommonUtils.reward t == CommonUtils.reward oldest).
Proof.
  intros Hpos.
  destruct (preprocess_nstep_some gamma w Hpos)
    as (oldest & newest & Ho & _ & Hrun).
  eexists. exists oldest. split; [exact Hrun|]. split; [exact Ho|].
  simpl. rewrite nstep_loop_foldr, foldr_rewards. split.
  - apply foldr_gamma_one.
  - intros Hg. destruct w as [|t w]; [discriminate|].
    simpl in Ho. injection Ho as <-.
    apply (foldr_gamma_zero gamma (CommonUtils.reward t)). exact Hg.
Qed.

Lemma preprocess_nstep_gamma_one_zero_witness :
  exists t oldest,
    CommonUtils.preprocess_nstep Examples.window123 1 = Some t /\
    head Examples.window123 = Some oldest /\
    (1 == 1 -> CommonUtils.reward t
               == Qsum (CommonUtils.rewards_of Examples.window123)) /\
    (1 == 0 -> CommonUtils.reward t == CommonUtils.reward oldest).
Proof.
  apply (preprocess_nstep_gamma_one_zero Examples.window123 1).
  simpl. lia.
Defined.

(** ** Target synchronisation *)

Section TargetSync.
Import CommonUtils.
Implicit Types (σ : store) (p t l : loc) (net target : network).

Lemma copy_frame σ σ' t src l :
  copy_ σ t src = Some σ' -> l <> t -> σ' !! l = σ !! l.
Proof.
  unfold copy_. intros H Hne.
  destruct (σ !! t) as [old|]; [|discriminate]. simpl in H.
  destruct (decide (length old = length src)); [|discriminate].
  injection H as <-. apply lookup_insert_ne. congruence.
Qed.

Lemma copy_written σ σ' t src :
  copy_ σ t src = Some σ' -> σ' !! t = Some src.
Proof.
  unfold copy_. intros H.
  destruct (σ !! t) as [old|]; [|discriminate]. simpl in H.
  destruct (decide (length old = length src)); [|discriminate].
  injection H as <-. apply lookup_insert_eq.
Qed.

Lemma copy_shape σ σ' t src l :
  copy_ σ t src = Some σ' -> shape σ' l = shape σ l.
Proof.
  intros H. unfold shape. destruct (decide (l = t)) as [->|Hne].
  - rewrite (copy_written _ _ _ _ H). unfold copy_ in H.
    destruct (σ !! t) as [old|]; [|discriminate]. simpl in H.
    destruct (decide (length old = length src)); [|discriminate].
    simpl. congruence.
  - rewrite (copy_frame _ _ _ _ _ H Hne). reflexivity.
Qed.

Lemma length_tensor_scale (d : tensor) (c : Q) :
  length (tensor_scale d c) = length d.
Proof. apply length_map. Qed.

Lemma tensor_add_some (a b v : tensor) :
  tensor_add a b = Some v ->
  length a = length b /\ v = zip_with Qplus a b.
Proof.
  unfold tensor_add. destruct (decide (length a = length b)); [|discriminate].
  intros H. injection H as <-. auto.
Qed.

(** What one pass of the loop of [soft_update] does. *)
Lemma soft_update_body_some tau σ σ' p t :
  soft_update_body tau σ p t = Some σ' ->
  exists pd td,
    σ !! p = Some pd /\ σ !! t = Some td /\ length pd = length td /\
    copy_ σ t (zip_with Qplus (tensor_scale pd tau) (tensor_scale td (1 - tau)))
    = Some σ'.
Proof.
  unfold soft_update_body. intros H.
  destruct (σ !! p) as [pd|]; [|discriminate]. simpl in H.
  destruct (σ !! t) as [td|]; [|discriminate]. simpl in H.
  destruct (tensor_add _ _) as [v|] eqn:Ev; [|discriminate]. simpl in H.
  apply tensor_add_some in Ev as [Hlen ->].
  rewrite !length_tensor_scale in Hlen.
  exists pd, td. auto.
Qed.

Lemma hard_update_body_some σ σ' p t :
  hard_update_body σ p t = Some σ' ->
  exists pd, σ !! p = Some pd /\ copy_ σ t pd = Some σ'.
Proof.
  unfold hard_update_body. intros H.
  destruct (σ !! p) as [pd|]; [|discriminate]. simpl in H. eauto.
Qed.

Lemma soft_update_body_writes_target tau : writes_target (soft_update_body tau).
Proof.
  intros σ σ' p t H.
  apply soft_update_body_some in H as (pd & td & _ & _ & _ & Hc).
  split; intros l.
  - intros Hne. exact (copy_frame _ _ _ _ _ Hc Hne).
  - exact (copy_shape _ _ _ _ _ Hc).
Qed.

Lemma hard_update_body_writes_target : writes_target hard_update_body.
Proof.
  intros σ σ' p t H.
  apply hard_update_body_some in H as (pd & _ & Hc).
  split; intros l.
  - intros Hne. exact (copy_frame _ _ _ _ _ Hc Hne).
  - exact (copy_shape _ _ _ _ _ Hc).
Qed.

(** Frame of the whole loop: objects outside the target list keep their
    data, and all objects keep their size. *)
Lemma update_loop_frame body net target σ σ' :
  writes_target body ->
  update_loop body net target σ = Some σ' ->
  (forall l, l ∉ target -> σ' !! l = σ !! l) /\
  (forall l, shape σ' l = shape σ l).
Proof.
  intros Hbody. revert target σ.
  induction net as [|p net IH]; intros target σ H.
  - simpl in H. injection H as <-. auto.
  - destruct target as [|t target]; simpl in H.
    { injection H as <-. auto. }
    destruct (body σ p t) as [σ1|] eqn:E1; [|discriminate]. simpl in H.
    destruct (Hbody _ _ _ _ E1) as [Hf1 Hs1].
    destruct (IH _ _ H) as [Hf Hs]. split; intros l.
    + intros Hl. rewrite Hf, Hf1; [reflexivity| |];
        intros Habs; apply Hl; subst; [left|right]; assumption.
    + rewrite Hs, Hs1. reflexivity.
Qed.

Lemma paired_shapes_shape σ σ' p t :
  (forall l, shape σ' l = shape σ l) ->
  paired_shapes σ p t -> paired_shapes σ' p t.
Proof.
  intros Hs (pd & td & Hp & Ht & Hlen).
  pose proof (Hs p) as Hsp. pose proof (Hs t) as Hst.
  unfold shape in Hsp, Hst. rewrite Hp in Hsp. rewrite Ht in Hst.
  destruct (σ' !! p) as [pd'|] eqn:Ep'; [|discriminate].
  destruct (σ' !! t) as [td'|] eqn:Et'; [|discriminate].
  simpl in Hsp, Hst. exists pd', td'. repeat split; congruence.
Qed.

Lemma soft_update_body_runs tau σ p t :
  paired_shapes σ p t -> is_Some (soft_update_body tau σ p t).
Proof.
  intros (pd & td & Hp & Ht & Hlen). unfold soft_update_body.
  rewrite Hp, Ht. simpl. unfold tensor_add.
  rewrite !length_tensor_scale.
  destruct (decide (length pd = length td)); [|contradiction]. simpl.
  unfold copy_. rewrite Ht. simpl.
  rewrite length_zip_with, !length_tensor_scale.
  destruct (decide _) as [|Hne]; [eauto|]. exfalso. apply Hne. lia.
Qed.

Lemma hard_update_body_runs σ p t :
  paired_shapes σ p t -> is_Some (hard_update_body σ p t).
Proof.
  intros (pd & td & Hp & Ht & Hlen). unfold hard_update_body.
  rewrite Hp. simpl. unfold copy_. rewrite Ht. simpl.
  destruct (decide _) as [|Hne]; [eauto|]. exfalso. apply Hne. lia.
Qed.

(** On aligned networks the loop runs to completion. *)
Lemma update_loop_runs body net target σ :
  writes_target body ->
  (forall σ p t, paired_shapes σ p t -> is_Some (body σ p t)) ->
  Forall2 (paired_shapes σ) net target ->
  is_Some (update_loop body net target σ).
Proof.
  intros Hw Hruns. revert target σ.
  induction net as [|p net IH]; intros target σ Hal.
  - simpl. eauto.
  - destruct target as [|t target]; [simpl; eauto|].
    apply Forall2_cons in Hal as [Hpt Hal]. simpl.
    destruct (Hruns _ _ _ Hpt) as [σ1 E1]. rewrite E1. simpl.
    apply IH. destruct (Hw _ _ _ _ E1) as [_ Hs1].
    eapply Forall2_impl; [exact Hal|].
    intros p' t'. apply paired_shapes_shape. exact Hs1.
Qed.

Lemma aligned_paired net target σ :
  aligned net target σ -> Forall2 (paired_shapes σ) net target.
Proof. intros [_ H]. exact H. Qed.

(** The value written by [soft_update] at each target parameter, under
    separate storage. *)
Lemma soft_update_values tau net target σ σ' :
  NoDup target -> separate net target ->
  soft_update net target tau σ = Some σ' ->
  forall (i : nat) p t pd td,
    net !! i = Some p -> target !! i = Some t ->
    σ !! p = Some pd -> σ !! t = Some td ->
    σ' !! t
    = Some (zip_with Qplus (tensor_scale pd tau) (tensor_scale td (1 - tau))).
Proof.
  unfold soft_update. revert target σ.
  induction net as [|p0 net IH]; intros target σ Hnd Hsep H i p t pd td Hp Ht Hpd Htd.
  - rewrite lookup_nil in Hp. discriminate.
  - destruct target as [|t0 target]; [rewrite lookup_nil in Ht; discriminate|].
    simpl in H.
    destruct (soft_update_body tau σ p0 t0) as [σ1|] eqn:E1; [|discriminate].
    simpl in H. apply NoDup_cons in Hnd as [Hnotin Hnd].
    pose proof (soft_update_body_some _ _ _ _ _ E1)
      as (pd0 & td0 & Hp0 & Ht0 & Hlen0 & Hc0).
    destruct (update_loop_frame _ _ _ _ _ (soft_update_body_writes_target tau) H)
      as [Hframe _].
    destruct i as [|i]; simpl in Hp, Ht.
    + injection Hp as <-. injection Ht as <-.
      rewrite Hframe by exact Hnotin.
      rewrite (copy_written _ _ _ _ Hc0). congruence.
    + assert (Hpne : p <> t0).
      { intros ->. apply (Hsep t0); [right; eapply list_elem_of_lookup_2; eauto|left]. }
      assert (Htne : t <> t0).
      { intros ->. apply Hnotin. eapply list_elem_of_lookup_2; eauto. }
      apply (IH target σ1 Hnd) with (i := i) (p := p); try assumption.
      * intros l Hl Hl'. apply (Hsep l); [right|right]; assumption.
      * rewrite (copy_frame _ _ _ _ _ Hc0 Hpne). exact Hpd.
      * rewrite (copy_frame _ _ _ _ _ Hc0 Htne). exact Htd.
Qed.
End TargetSync.

Section SoftVersusHard.
Import CommonUtils.
Implicit Types (σ : store) (p t l : loc) (net target : network).

Lemma tensor_eq_length (a b : tensor) : tensor_eq a b -> length a = length b.
Proof. apply Forall2_length. Qed.

Lemma tensor_eq_refl (a : tensor) : tensor_eq a a.
Proof. induction a; constructor; [reflexivity|assumption]. Qed.

Lemma store_eq_refl σ : store_eq σ σ.
Proof.
  intros l. destruct (σ !! l); constructor. apply tensor_eq_refl.
Qed.

(** The tensor computed by the body of [soft_update], entry by entry. *)
Lemma polyak_entries tau (pd td : tensor) :
  tensor_eq (zip_with Qplus (tensor_scale pd tau) (tensor_scale td (1 - tau)))
            (zip_with (fun x y => tau * x + (1 - tau) * y) pd td).
Proof.
  revert td. induction pd as [|x pd IH]; intros [|y td]; simpl;
    try constructor; [ring|apply IH].
Qed.

(** With [tau = 1] that tensor is the live parameter. *)
Lemma polyak_one tau (pd1 pd2 td : tensor) :
  tau == 1 -> tensor_eq pd1 pd2 -> length pd1 = length td ->
  tensor_eq (zip_with Qplus (tensor_scale pd1 tau) (tensor_scale td (1 - tau)))
            pd2.
Proof.
  intros Htau Heq. revert td.
  induction Heq as [|x1 x2 pd1 pd2 Hx _ IH]; intros [|y td] Hlen;
    simpl in *; try discriminate; constructor.
  - rewrite Htau, Hx. ring.
  - apply IH. lia.
Qed.

Lemma store_eq_insert σ1 σ2 t (v1 v2 : tensor) :
  store_eq σ1 σ2 -> tensor_eq v1 v2 ->
  store_eq (<[t := v1]> σ1) (<[t := v2]> σ2).
Proof.
  intros Hs Hv l. destruct (decide (t = l)) as [->|Hne].
  - rewrite !lookup_insert_eq. constructor. exact Hv.
  - rewrite !lookup_insert_ne by exact Hne. apply Hs.
Qed.

(** One loop pass of [soft_update] with [tau = 1] and one of
    [hard_update] fail together or leave equal stores. *)
Lemma soft_hard_body tau σ1 σ2 p t :
  tau == 1 -> store_eq σ1 σ2 ->
  option_Forall2 store_eq (soft_update_body tau σ1 p t)
                          (hard_update_body σ2 p t).
Proof.
  intros Htau Hs. unfold soft_update_body, hard_update_body.
  pose proof (Hs p) as Hp. pose proof (Hs t) as Ht.
  destruct Hp as [pd1 pd2 Hpd|]; simpl; [|constructor].
  unfold copy_, tensor_add.
  pose proof (tensor_eq_length _ _ Hpd) as Hlp.
  destruct Ht as [td1 td2 Htd|]; simpl; [|constructor].
  pose proof (tensor_eq_length _ _ Htd) as Hlt.
  rewrite !length_tensor_scale.
  destruct (decide (length pd1 = length td1)) as [Hlen|Hlen]; simpl.
  - rewrite length_zip_with, !length_tensor_scale.
    destruct (decide (length td1 = length pd1 `min` length td1)) as [_|Hn];
      [|exfalso; apply Hn; lia].
    destruct (decide (length td2 = length pd2)) as [_|Hn];
      [|exfalso; apply Hn; lia].
    constructor. apply store_eq_insert; [exact Hs|].
    apply polyak_one; assumption.
  - destruct (decide (length td2 = length pd2)) as [Hn|_];
      [exfalso; apply Hlen; lia|constructor].
Qed.

Lemma soft_hard_loop tau net target σ1 σ2 :
  tau == 1 -> store_eq σ1 σ2 ->
  option_Forall2 store_eq
    (update_loop (soft_update_body tau) net target σ1)
    (update_loop hard_update_body net target σ2).
Proof.
  intros Htau. revert target σ1 σ2.
  induction net as [|p net IH]; intros target σ1 σ2 Hs.
  - simpl. constructor. exact Hs.
  - destruct target as [|t target]; simpl; [constructor; exact Hs|].
    destruct (soft_hard_body tau σ1 σ2 p t Htau Hs) as [σ1' σ2' Hs'|]; simpl.
    + apply IH. exact Hs'.
    + constructor.
Qed.
End SoftVersusHard.

(** ** Claims on [soft_update] and [hard_update] *)

(** Networks that share a parameter object are aligned as well: equal
    lengths, paired parameters allocated with equal sizes. *)
Lemma tied_aligned :
  CommonUtils.aligned Examples.tied_live Examples.tied_target Examples.store3.
Proof.
  split; [reflexivity|].
  repeat constructor.
  - exists [1], [2]. repeat split; reflexivity.
  - exists [2], [3]. repeat split; reflexivity.
Defined.

(** C7 (as stated, refuted): the live network [[0; 1]] and the target
    network [[1; 2]] are aligned and share object 1.  With [tau = 1/2] the
    first iteration overwrites object 1 (held [2]) with [3/2]; the second
    iteration then reads that new value as its live parameter and leaves
    [1/2 * 3/2 + 1/2 * 3 = 9/4] in the second target parameter, not
    [tau * live + (1 - tau) * target = 1/2 * 2 + 1/2 * 3 = 5/2] of the
    values held when [soft_update] was called. *)
Lemma C7_shared_parameter_counterexample :
  CommonUtils.aligned Examples.tied_live Examples.tied_target Examples.store3 /\
  exists (σ' : CommonUtils.store) (v : list Q),
    CommonUtils.soft_update Examples.tied_live Examples.tied_target (1 # 2)
      Examples.store3 = Some σ' /\
    Examples.tied_live !! 1%nat = Some 1%nat /\
    Examples.tied_target !! 1%nat = Some 2%nat /\
    Examples.store3 !! 1%nat = Some [2] /\
    Examples.store3 !! 2%nat = Some [3] /\
    σ' !! 2%nat = Some v /\
    tensor_eq v [9 # 4] /\
    ~ tensor_eq v
        (zip_with (fun x y => (1 # 2) * x + (1 - (1 # 2)) * y) [2] [3]).
Proof.
  split; [exact tied_aligned|].
  eexists. eexists.
  split; [vm_compute; reflexivity|].
  repeat (split; [reflexivity|]).
  split.
  - repeat constructor.
  - intros H. inversion H as [|x y ? ? Hxy _]; subst.
    vm_compute in Hxy. discriminate.
Qed.

(** C7 (amended): on every pair of aligned networks [soft_update] runs to
    completion.  When the parameter objects of the target are pairwise
    distinct and none of them is a parameter object of the live network,
    it leaves in each target parameter
    [tau * live + (1 - tau) * target] (entry by entry, of the values held
    before the call).  On every aligned pair, shared objects or not, with
    [tau = 1] the resulting store equals the one produced by
    [hard_update] on the same pair. *)
Theorem C7_soft_update_polyak
    (net target : CommonUtils.network) (tau : Q) (σ : CommonUtils.store) :
  CommonUtils.aligned net target σ ->
  exists σ',
    CommonUtils.soft_update net target tau σ = Some σ' /\
    (NoDup target ->
     CommonUtils.separate net target ->
     forall (i : nat) p t pd td,
        net !! i = Some p -> target !! i = Some t ->
        σ !! p = Some pd -> σ !! t = Some td ->
        exists v, σ' !! t = Some v /\
          tensor_eq v (zip_with (fun x y => tau * x + (1 - tau) * y) pd td)) /\
    (tau == 1 ->
     exists σh, CommonUtils.hard_update net target σ = Some σh /\
                CommonUtils.store_eq σ' σh).
Proof.
  intros Hal.
  destruct (update_loop_runs (CommonUtils.soft_update_body tau) net target σ
              (soft_update_body_writes_target tau)
              (soft_update_body_runs tau)
              (aligned_paired _ _ _ Hal)) as [σ' Hrun].
  exists σ'. split; [exact Hrun|]. split.
  - intros Hnd Hsep i p t pd td Hp Ht Hpd Htd.
    eexists. split.
    + eapply soft_update_values; eauto.
    + apply polyak_entries.
  - intros Htau.
    pose proof (soft_hard_loop tau net target σ σ Htau (store_eq_refl σ)) as H.
    unfold CommonUtils.soft_update in Hrun. rewrite Hrun in H.
    inversion H as [σ1 σh Heq E1 E2|]; subst.
    exists σh. split; [symmetry; assumption|exact Heq].
Qed.

Lemma example_aligned :
  CommonUtils.aligned Examples.live_net Examples.target_net Examples.store4.
Proof.
  split; [reflexivity|].
  repeat constructor.
  - exists [1; 2], [5; 6]. repeat split; reflexivity.
  - exists [3], [7]. repeat split; reflexivity.
Defined.

Lemma example_separate :
  CommonUtils.separate Examples.live_net Examples.target_net.
Proof.
  intros l Hl Ht. apply list_elem_of_In in Hl. apply list_elem_of_In in Ht.
  simpl in Hl, Ht. lia.
Defined.

Lemma example_nodup : NoDup Examples.target_net.
Proof.
  apply NoDup_cons. split; [|apply NoDup_singleton].
  rewrite list_elem_of_In. simpl. lia.
Defined.

Lemma C7_soft_update_polyak_witness :
  (exists σ',
      CommonUtils.soft_update Examples.live_net Examples.target_net (1 # 4)
        Examples.store4 = Some σ' /\
      forall (i : nat) p t pd td,
        Examples.live_net !! i = Some p -> Examples.target_net !! i = Some t ->
        Examples.store4 !! p = Some pd -> Examples.store4 !! t = Some td ->
        exists v, σ' !! t = Some v /\
          tensor_eq v
            (zip_with (fun x y => (1 # 4) * x + (1 - (1 # 4)) * y) pd td)) /\
  (exists σ' σh,
      CommonUtils.soft_update Examples.tied_live Examples.tied_target 1
        Examples.store3 = Some σ' /\
      CommonUtils.hard_update Examples.tied_live Examples.tied_target
        Examples.store3 = Some σh /\
      CommonUtils.store_eq σ' σh).
Proof.
  split.
  - destruct (C7_soft_update_polyak Examples.live_net Examples.target_net
                (1 # 4) Examples.store4 example_aligned)
      as (σ' & Hrun & Hpolyak & _).
    exists σ'. split; [exact Hrun|].
    exact (Hpolyak example_nodup example_separate).
  - destruct (C7_soft_update_polyak Examples.tied_live Examples.tied_target
                1 Examples.store3 tied_aligned)
      as (σ' & Hrun & _ & Hhard).
    destruct (Hhard ltac:(reflexivity)) as (σh & Hh & Heq).
    exists σ', σh. split; [exact Hrun|]. split; [exact Hh|exact Heq].
Defined.

(** C9 (as stated, refuted): on the aligned pair [[0; 1]] / [[1; 2]]
    object 1 is the second parameter of the live network and the first
    parameter of the target.  [hard_update] overwrites it (held [2]) with
    the first live parameter [1], and [soft_update] with [tau = 1/2]
    overwrites it with [3/2]: a parameter of the live network is changed
    by either operation. *)
Lemma C9_live_parameter_counterexample :
  CommonUtils.aligned Examples.tied_live Examples.tied_target Examples.store3 /\
  1%nat ∈ Examples.tied_live /\
  Examples.store3 !! 1%nat = Some [2] /\
  (exists σh : CommonUtils.store,
      CommonUtils.hard_update Examples.tied_live Examples.tied_target
        Examples.store3 = Some σh /\
      σh !! 1%nat = Some [1] /\
      σh !! 1%nat <> Examples.store3 !! 1%nat) /\
  (exists (σs : CommonUtils.store) (v : list Q),
      CommonUtils.soft_update Examples.tied_live Examples.tied_target (1 # 2)
        Examples.store3 = Some σs /\
      σs !! 1%nat = Some v /\
      tensor_eq v [3 # 2] /\
      ~ tensor_eq v [2]).
Proof.
  split; [exact tied_aligned|].
  split; [apply list_elem_of_In; simpl; auto|].
  split; [reflexivity|]. split.
  - eexists. split; [vm_compute; reflexivity|].
    split; [reflexivity|]. discriminate.
  - eexists. eexists. split; [vm_compute; reflexivity|].
    split; [reflexivity|]. split.
    + repeat constructor.
    + intros H. inversion H as [|x y ? ? Hxy _]; subst.
      vm_compute in Hxy. discriminate.
Qed.

(** C9 (amended): on aligned networks, for every [tau], [soft_update] and
    [hard_update] run to completion and change no object other than the
    parameter objects of the target network; hence, when the two networks
    share no parameter object, every parameter of the live network is
    unchanged. *)
Theorem C9_updates_write_target_only
    (net target : CommonUtils.network) (tau : Q) (σ : CommonUtils.store) :
  CommonUtils.aligned net target σ ->
  (exists σs,
      CommonUtils.soft_update net target tau σ = Some σs /\
      (forall l : CommonUtils.loc, l ∉ target -> σs !! l = σ !! l) /\
      (CommonUtils.separate net target ->
       forall p : CommonUtils.loc, p ∈ net -> σs !! p = σ !! p)) /\
  (exists σh,
      CommonUtils.hard_update net target σ = Some σh /\
      (forall l : CommonUtils.loc, l ∉ target -> σh !! l = σ !! l) /\
      (CommonUtils.separate net target ->
       forall p : CommonUtils.loc, p ∈ net -> σh !! p = σ !! p)).
Proof.
  intros Hal. split.
  - destruct (update_loop_runs (CommonUtils.soft_update_body tau) net target σ
                (soft_update_body_writes_target tau)
                (soft_update_body_runs tau)
                (aligned_paired _ _ _ Hal)) as [σs Hrun].
    destruct (update_loop_frame _ _ _ _ _
                (soft_update_body_writes_target tau) Hrun) as [Hframe _].
    exists σs. split; [exact Hrun|]. split; [exact Hframe|].
    intros Hsep p Hp. apply Hframe. apply Hsep. exact Hp.
  - destruct (update_loop_runs CommonUtils.hard_update_body net target σ
                hard_update_body_writes_target
                hard_update_body_runs
                (aligned_paired _ _ _ Hal)) as [σh Hrun].
    destruct (update_loop_frame _ _ _ _ _
                hard_update_body_writes_target Hrun) as [Hframe _].
    exists σh. split; [exact Hrun|]. split; [exact Hframe|].
    intros Hsep p Hp. apply Hframe. apply Hsep. exact Hp.
Qed.

Lemma C9_updates_write_target_only_witness :
  (exists σs,
      CommonUtils.soft_update Examples.live_net Examples.target_net (1 # 4)
        Examples.store4 = Some σs /\
      (forall l : CommonUtils.loc,
          l ∉ Examples.target_net -> σs !! l = Examples.store4 !! l) /\
      (forall p : CommonUtils.loc,
          p ∈ Examples.live_net -> σs !! p = Examples.store4 !! p)) /\
  (exists σh,
      CommonUtils.hard_update Examples.live_net Examples.target_net
        Examples.store4 = Some σh /\
      (forall l : CommonUtils.loc,
          l ∉ Examples.target_net -> σh !! l = Examples.store4 !! l) /\
      (forall p : CommonUtils.loc,
          p ∈ Examples.live_net -> σh !! p = Examples.store4 !! p)).
Proof.
  destruct (C9_updates_write_target_only Examples.live_net Examples.target_net
              (1 # 4) Examples.store4 example_aligned)
    as [(σs & Hs & Hsframe & Hslive) (σh & Hh & Hhframe & Hhlive)].
  split.
  - exists σs. split; [exact Hs|]. split; [exact Hsframe|].
    exact (Hslive example_separate).
  - exists σh. split; [exact Hh|]. split; [exact Hhframe|].
    exact (Hhlive example_separate).
Defined.

(** ** Further properties of [soft_update] and [hard_update] *)

Section SyncExtras.
Import CommonUtils.
Implicit Types (σ : gmap nat (list Q)) (p t l : nat) (net target : list nat).

(** The value written by [hard_update] at each target parameter, under
    separate storage. *)
Lemma hard_update_values net target σ σ' :
  NoDup target -> separate net target ->
  hard_update net target σ = Some σ' ->
  forall (i : nat) p t pd,
    net !! i = Some p -> target !! i = Some t ->
    σ !! p = Some pd -> σ' !! t = Some pd.
Proof.
  unfold hard_update. revert target σ.
  induction net as [|p0 net IH]; intros target σ Hnd Hsep H i p t pd Hp Ht Hpd.
  - rewrite lookup_nil in Hp. discriminate.
  - destruct target as [|t0 target]; [rewrite lookup_nil in Ht; discriminate|].
    simpl in H.
    destruct (hard_update_body σ p0 t0) as [σ1|] eqn:E1; [|discriminate].
    simpl in H. apply NoDup_cons in Hnd as [Hnotin Hnd].
    pose proof (hard_update_body_some _ _ _ _ E1) as (pd0 & Hp0 & Hc0).
    destruct (update_loop_frame _ _ _ _ _ hard_update_body_writes_target H)
      as [Hframe _].
    destruct i as [|i]; simpl in Hp, Ht.
    + injection Hp as <-. injection Ht as <-.
      rewrite Hframe by exact Hnotin.
      rewrite (copy_written _ _ _ _ Hc0). congruence.
    + assert (Hpne : p <> t0).
      { intros ->. apply (Hsep t0); [right; eapply list_elem_of_lookup_2; eauto|left]. }
      apply (IH target σ1 Hnd) with (i := i) (p := p); try assumption.
      * intros l Hl Hl'. apply (Hsep l); [right|right]; assumption.
      * rewrite (copy_frame _ _ _ _ _ Hc0 Hpne). exact Hpd.
Qed.

(** A store in which every target parameter already holds the data of its
    live parameter is left as it is by [hard_update]. *)
Lemma hard_update_fixpoint net target σ :
  (forall (i : nat) p t, net !! i = Some p -> target !! i = Some t ->
     exists d, σ !! p = Some d /\ σ !! t = Some d) ->
  update_loop hard_update_body net target σ = Some σ.
Proof.
  revert target. induction net as [|p net IH]; intros target H; [reflexivity|].
  destruct target as [|t target]; [reflexivity|]. simpl.
  destruct (H 0%nat p t eq_refl eq_refl) as (d & Hp & Ht).
  unfold hard_update_body, copy_. rewrite Hp. simpl. rewrite Ht. simpl.
  destruct (decide (length d = length d)) as [_|Hn]; [|contradiction].
  simpl. rewrite (insert_id σ t d Ht). apply IH.
  intros i p' t' Hp' Ht'. exact (H (S i) p' t' Hp' Ht').
Qed.

Lemma tensor_eq_trans (a b c : list Q) :
  tensor_eq a b -> tensor_eq b c -> tensor_eq a c.
Proof.
  intros Hab. revert c. induction Hab as [|x y a b Hxy _ IH]; intros c Hbc;
    inversion Hbc; subst; constructor.
  - lra.
  - apply IH. assumption.
Qed.

(** With [tau = 0] the tensor computed by the body of [soft_update] is
    the old target parameter. *)
Lemma polyak_zero tau (pd td : list Q) :
  tau == 0 -> length pd = length td ->
  tensor_eq (zip_with Qplus (tensor_scale pd tau) (tensor_scale td (1 - tau)))
            td.
Proof.
  intros Htau. revert td. induction pd as [|x pd IH]; intros [|y td] Hlen;
    simpl in Hlen; try discriminate; simpl; constructor.
  - rewrite Htau. ring.
  - apply IH. lia.
Qed.

Lemma soft_zero_loop tau net target σ1 σ1' σ :
  tau == 0 -> store_eq σ1 σ ->
  update_loop (soft_update_body tau) net target σ1 = Some σ1' ->
  store_eq σ1' σ.
Proof.
  intros Htau. revert target σ1.
  induction net as [|p net IH]; intros target σ1 Hs H.
  - simpl in H. injection H as <-. exact Hs.
  - destruct target as [|t target]; simpl in H.
    { injection H as <-. exact Hs. }
    destruct (soft_update_body tau σ1 p t) as [σ2|] eqn:E; [|discriminate].
    simpl in H. apply (IH target σ2); [|exact H].
    apply soft_update_body_some in E as (pd & td & Hp & Ht & Hlen & Hc).
    unfold copy_ in Hc. rewrite Ht in Hc. simpl in Hc.
    destruct (decide _) in Hc; [|discriminate]. injection Hc as <-.
    intros l. destruct (decide (t = l)) as [<-|Hne].
    + rewrite lookup_insert_eq. pose proof (Hs t) as Hst. rewrite Ht in Hst.
      inversion Hst as [? td2 Heq|]; subst. constructor.
      eapply tensor_eq_trans; [|exact Heq].
      apply polyak_zero; assumption.
    + rewrite lookup_insert_ne by exact Hne. apply Hs.
Qed.

(** Each entry written by the body of [soft_update] lies between the live
    and the old target entry when [0 <= tau <= 1]. *)
Lemma polyak_convex tau (pd td : list Q) :
  0 <= tau -> tau <= 1 ->
  Forall2 (fun xy v =>
             (xy.1 <= xy.2 -> xy.1 <= v /\ v <= xy.2) /\
             (xy.2 <= xy.1 -> xy.2 <= v /\ v <= xy.1))
          (zip pd td)
          (zip_with Qplus (tensor_scale pd tau) (tensor_scale td (1 - tau))).
Proof.
  intros H0 H1. revert td. induction pd as [|x pd IH]; intros [|y td]; simpl;
    constructor; [|apply IH].
  simpl. split; intros Hxy; split; nra.
Qed.

(** [zip] stops at the shorter parameter list. *)
Lemma update_loop_take body net target σ :
  update_loop body net target σ
  = update_loop body (take (length target) net) (take (length net) target) σ.
Proof.
  revert target σ. induction net as [|p net IH]; intros [|t target] σ;
    try reflexivity.
  simpl. destruct (body σ p t) as [σ1|]; simpl; [apply IH|reflexivity].
Qed.

End SyncExtras.

(** X8: [hard_update] is idempotent: on aligned networks with separate
    parameter objects, a second [hard_update] leaves the store produced by
    the first one unchanged. *)
Theorem hard_update_idempotent
    (net target : list nat) (σ : gmap nat (list Q)) :
  CommonUtils.aligned net target σ ->
  NoDup target ->
  CommonUtils.separate net target ->
  exists σ1,
    CommonUtils.hard_update net target σ = Some σ1 /\
    CommonUtils.hard_update net target σ1 = Some σ1.
Proof.
  intros Hal Hnd Hsep.
  destruct (update_loop_runs CommonUtils.hard_update_body net target σ
              hard_update_body_writes_target hard_update_body_runs
              (aligned_paired _ _ _ Hal)) as [σ1 Hrun].
  exists σ1. split; [exact Hrun|].
  apply hard_update_fixpoint. intros i p t Hp Ht.
  destruct Hal as [_ Hpairs].
  destruct (Forall2_lookup_lr _ _ _ _ _ _ Hpairs Hp Ht) as (pd & td & Hpd & _).
  exists pd. split.
  - destruct (update_loop_frame _ _ _ _ _ hard_update_body_writes_target Hrun)
      as [Hframe _].
    rewrite Hframe; [exact Hpd|].
    apply Hsep. eapply list_elem_of_lookup_2. exact Hp.
  - eapply hard_update_values; eauto.
Qed.

Lemma example_target_nodup : NoDup Examples.target_net.
Proof.
  apply NoDup_cons. split; [|apply NoDup_singleton].
  rewrite list_elem_of_In. simpl. lia.
Defined.

Lemma hard_update_idempotent_witness :
  exists σ1,
    CommonUtils.hard_update Examples.live_net Examples.target_net
      Examples.store4 = Some σ1 /\
    CommonUtils.hard_update Examples.live_net Examples.target_net σ1 = Some σ1.
Proof.
  apply (hard_update_idempotent Examples.live_net Examples.target_net
           Examples.store4).
  - exact example_aligned.
  - exact example_target_nodup.
  - exact example_separate.
Defined.

(** X9: for [0 <= tau <= 1], [soft_update] on aligned networks with
    separate parameter objects writes a convex combination: every entry of
    every new target parameter lies between the corresponding live entry
    and old target entry. *)
Theorem soft_update_convex
    (net target : list nat) (tau : Q) (σ : gmap nat (list Q)) :
  0 <= tau -> tau <= 1 ->
  CommonUtils.aligned net target σ ->
  NoDup target ->
  CommonUtils.separate net target ->
  exists σ',
    CommonUtils.soft_update net target tau σ = Some σ' /\
    forall (i : nat) p t pd td,
      net !! i = Some p -> target !! i = Some t ->
      σ !! p = Some pd -> σ !! t = Some td ->
      exists v,
        σ' !! t = Some v /\
        Forall2 (fun xy vj =>
                   (xy.1 <= xy.2 -> xy.1 <= vj /\ vj <= xy.2) /\
                   (xy.2 <= xy.1 -> xy.2 <= vj /\ vj <= xy.1))
                (zip pd td) v.
Proof.
  intros H0 H1 Hal Hnd Hsep.
  destruct (update_loop_runs (CommonUtils.soft_update_body tau) net target σ
              (soft_update_body_writes_target tau)
              (soft_update_body_runs tau)
              (aligned_paired _ _ _ Hal)) as [σ' Hrun].
  exists σ'. split; [exact Hrun|].
  intros i p t pd td Hp Ht Hpd Htd. eexists. split.
  - eapply soft_update_values; eauto.
  - apply polyak_convex; assumption.
Qed.

Lemma soft_update_convex_witness :
  exists σ',
    CommonUtils.soft_update Examples.live_net Examples.target_net (1 # 4)
      Examples.store4 = Some σ' /\
    forall (i : nat) p t pd td,
      Examples.live_net !! i = Some p -> Examples.target_net !! i = Some t ->
      Examples.store4 !! p = Some pd -> Examples.store4 !! t = Some td ->
      exists v,
        σ' !! t = Some v /\
        Forall2 (fun xy vj =>
                   (xy.1 <= xy.2 -> xy.1 <= vj /\ vj <= xy.2) /\
                   (xy.2 <= xy.1 -> xy.2 <= vj /\ vj <= xy.1))
                (zip pd td) v.
Proof.
  apply (soft_update_convex Examples.live_net Examples.target_net (1 # 4)
           Examples.store4).
  - vm_compute. discriminate.
  - vm_compute. discriminate.
  - exact example_aligned.
  - exact example_target_nodup.
  - exact example_separate.
Defined.

(** X10: with [tau = 0], [soft_update] on aligned networks runs to
    completion and leaves every parameter of both networks with its old
    values. *)
Theorem soft_update_tau_zero
    (net target : list nat) (tau : Q) (σ : gmap nat (list Q)) :
  tau == 0 ->
  CommonUtils.aligned net target σ ->
  exists σ',
    CommonUtils.soft_update net target tau σ = Some σ' /\
    CommonUtils.store_eq σ' σ.
Proof.
  intros Htau Hal.
  destruct (update_loop_runs (CommonUtils.soft_update_body tau) net target σ
              (soft_update_body_writes_target tau)
              (soft_update_body_runs tau)
              (aligned_paired _ _ _ Hal)) as [σ' Hrun].
  exists σ'. split; [exact Hrun|].
  exact (soft_zero_loop tau net target σ σ' σ Htau (store_eq_refl σ) Hrun).
Qed.

Lemma soft_update_tau_zero_witness :
  exists σ',
    CommonUtils.soft_update Examples.live_net Examples.target_net 0
      Examples.store4 = Some σ' /\
    CommonUtils.store_eq σ' Examples.store4.
Proof.
  apply (soft_update_tau_zero Examples.live_net Examples.target_net 0
           Examples.store4).
  - reflexivity.
  - exact example_aligned.
Defined.

(** X11: the two updates do not check that the networks have the same
    number of parameters: [zip] stops at the shorter list, so only the
    common prefix is processed, and a target parameter beyond it keeps its
    data (unless the same object also occurs in the prefix). *)
Theorem updates_stop_at_shorter_network
    (net target : list nat) (tau : Q) (σ σ' : gmap nat (list Q))
    (i : nat) (t : nat) :
  CommonUtils.soft_update net target tau σ = Some σ' \/
  CommonUtils.hard_update net target σ = Some σ' ->
  (length net <= i)%nat -> target !! i = Some t ->
  t ∉ take (length net) target ->
  σ' !! t = σ !! t /\
  CommonUtils.soft_update net target tau σ
  = CommonUtils.soft_update (take (length target) net)
      (take (length net) target) tau σ /\
  CommonUtils.hard_update net target σ
  = CommonUtils.hard_update (take (length target) net)
      (take (length net) target) σ.
Proof.
  intros Hrun _ _ Hnotin.
  split; [|split; apply update_loop_take].
  destruct Hrun as [Hrun|Hrun].
  - unfold CommonUtils.soft_update in Hrun. rewrite update_loop_take in Hrun.
    destruct (update_loop_frame _ _ _ _ _
                (soft_update_body_writes_target tau) Hrun) as [Hframe _].
    apply Hframe. exact Hnotin.
  - unfold CommonUtils.hard_update in Hrun. rewrite update_loop_take in Hrun.
    destruct (update_loop_frame _ _ _ _ _
                hard_update_body_writes_target Hrun) as [Hframe _].
    apply Hframe. exact Hnotin.
Qed.

Lemma updates_stop_at_shorter_network_witness :
  exists σ',
    CommonUtils.hard_update [0%nat] Examples.target_net Examples.store4
    = Some σ' /\
    σ' !! 11%nat = Examples.store4 !! 11%nat /\ σ' !! 10%nat = Some [1; 2].
Proof.
  eexists. split; [vm_compute; reflexivity|]. split; [|vm_compute; reflexivity].
  apply (updates_stop_at_shorter_network [0%nat] Examples.target_net 0
           Examples.store4 _ 1 11).
  - right. vm_compute. reflexivity.
  - simpl. lia.
  - reflexivity.
  - rewrite list_elem_of_In. simpl. lia.
Defined.

(** ** Bootstrap targets of the three losses *)

Section Targets.
Import CommonUtils Loss.

Lemma bootstrap_target_done (r nsg z : Q) :
  bootstrap_target r (bool_to_float true) nsg z == r.
Proof. unfold bootstrap_target, bool_to_float. ring. Qed.

Lemma lookup_zip_some {A B : Type} (l : list A) (k : list B) (i : nat) a b :
  l !! i = Some a -> k !! i = Some b -> zip l k !! i = Some (a, b).
Proof.
  intros Ha Hb. rewrite lookup_zip_with, Ha. simpl.
  rewrite Hb. reflexivity.
Qed.

Lemma lookup_np2tensor_bool (dones : list bool) (i : nat) d :
  dones !! i = Some d -> np2tensor_bool dones !! i = Some (bool_to_float d).
Proof.
  intros H. unfold np2tensor_bool. rewrite list_lookup_fmap, H. reflexivity.
Qed.

(** A row of targets computed entry by entry from a row of bootstrap
    values. *)
Lemma target_row (r : Q) (d : bool) (gamma : Q) (n_step : Z) (row : list Q) :
  Forall2 (spec_target_shape r d gamma n_step) row
    (map (bootstrap_target r (bool_to_float d) (n_step_gamma gamma n_step)) row).
Proof.
  induction row as [|z row IH]; simpl; constructor; [|exact IH].
  split; [reflexivity|]. intros ->. apply bootstrap_target_done.
Qed.
End Targets.

(** C4: at every sample [i] of a batch, with [done] converted to 0 / 1,
    the target of [DQNLoss] (line 29), of [QRLoss] (line 61) and of
    [CategoricalLoss] (line 106) is
    [reward + (1 - done) * gamma^n_step * bootstrap], the bootstrap being
    the next Q-value, each next quantile and each support point; so for
    [done = True] every such target equals the reward.  (The categorical
    loss then clamps its target into [[v_min, v_max]], line 107.) *)
Theorem C4_bootstrap_target_shape
    (net : Loss.C51Network) (gamma : Q) (n_step : Z)
    (rewards : list Q) (dones : list bool)
    (next_q : list Q) (next_z : list (list Q))
    (i : nat) (r : Q) (d : bool) :
  rewards !! i = Some r -> dones !! i = Some d ->
  (forall nq, next_q !! i = Some nq ->
     exists y,
       Loss.dqn_target_q rewards (CommonUtils.np2tensor_bool dones)
         (Loss.n_step_gamma gamma n_step) next_q !! i = Some y /\
       Loss.spec_target_shape r d gamma n_step nq y) /\
  (forall row, next_z !! i = Some row ->
     exists ys,
       Loss.qr_target_z rewards (CommonUtils.np2tensor_bool dones)
         (Loss.n_step_gamma gamma n_step) next_z !! i = Some ys /\
       Forall2 (Loss.spec_target_shape r d gamma n_step) row ys) /\
  (exists ys,
     Loss.categorical_target_z_raw net rewards (CommonUtils.np2tensor_bool dones)
       (Loss.n_step_gamma gamma n_step) !! i = Some ys /\
     Forall2 (Loss.spec_target_shape r d gamma n_step) (Loss.support net) ys /\
     Loss.categorical_target_z net rewards (CommonUtils.np2tensor_bool dones)
       (Loss.n_step_gamma gamma n_step) !! i
     = Some (map (Loss.clamp (Loss.v_min net) (Loss.v_max net)) ys)).
Proof.
  intros Hr Hd.
  pose proof (lookup_np2tensor_bool dones i d Hd) as Hdf.
  pose proof (lookup_zip_some rewards _ i r _ Hr Hdf) as Hz.
  split; [|split].
  - intros nq Hnq. eexists. split.
    + unfold Loss.dqn_target_q. rewrite lookup_zip_with, Hz. simpl.
      rewrite Hnq. reflexivity.
    + simpl. split; [reflexivity|].
      intros ->. apply bootstrap_target_done.
  - intros row Hrow. eexists. split.
    + unfold Loss.qr_target_z. rewrite lookup_zip_with, Hz. simpl.
      rewrite Hrow. reflexivity.
    + simpl. apply target_row.
  - eexists. split; [|split].
    + unfold Loss.categorical_target_z_raw. rewrite list_lookup_fmap, Hz.
      reflexivity.
    + simpl. apply target_row.
    + unfold Loss.categorical_target_z, Loss.categorical_target_z_raw.
      rewrite !list_lookup_fmap, Hz. reflexivity.
Qed.

Lemma C4_bootstrap_target_shape_witness :
  (forall nq, [5; 7] !! 1%nat = Some nq ->
     exists y,
       Loss.dqn_target_q [1; 2] (CommonUtils.np2tensor_bool [false; true])
         (Loss.n_step_gamma (9 # 10) 3) [5; 7] !! 1%nat = Some y /\
       Loss.spec_target_shape 2 true (9 # 10) 3 nq y) /\
  (forall row, [[5; 6]; [7; 8]] !! 1%nat = Some row ->
     exists ys,
       Loss.qr_target_z [1; 2] (CommonUtils.np2tensor_bool [false; true])
         (Loss.n_step_gamma (9 # 10) 3) [[5; 6]; [7; 8]] !! 1%nat = Some ys /\
       Forall2 (Loss.spec_target_shape 2 true (9 # 10) 3) row ys) /\
  (exists ys,
     Loss.categorical_target_z_raw Examples.net3 [1; 2]
       (CommonUtils.np2tensor_bool [false; true])
       (Loss.n_step_gamma (9 # 10) 3) !! 1%nat = Some ys /\
     Forall2 (Loss.spec_target_shape 2 true (9 # 10) 3)
       (Loss.support Examples.net3) ys /\
     Loss.categorical_target_z Examples.net3 [1; 2]
       (CommonUtils.np2tensor_bool [false; true])
       (Loss.n_step_gamma (9 # 10) 3) !! 1%nat
     = Some (map (Loss.clamp (Loss.v_min Examples.net3) (Loss.v_max Examples.net3)) ys)).
Proof.
  apply (C4_bootstrap_target_shape Examples.net3 (9 # 10) 3 [1; 2] [false; true]
           [5; 7] [[5; 6]; [7; 8]] 1%nat 2 true); reflexivity.
Defined.

(** ** Quantile Huber loss *)

Section Huber.
Import Loss.

Lemma huber_quadratic (x : Q) : Qabs x < 1 -> huber 1 x == (1 # 2) * x ^ 2.
Proof.
  intros H. unfold huber.
  destruct (Qlt_le_dec (Qabs x) 1) as [_|Hge]; [reflexivity|lra].
Qed.

Lemma huber_linear (x : Q) : 1 <= Qabs x -> huber 1 x == Qabs x - (1 # 2).
Proof.
  intros H. unfold huber.
  destruct (Qlt_le_dec (Qabs x) 1) as [Hlt|_]; [lra|ring].
Qed.

Lemma Qabs_square (x : Q) : x ^ 2 == Qabs x * Qabs x.
Proof.
  change (x ^ 2) with (x * x).
  apply (Qabs_case x (fun a => x * x == a * a)); intros _; ring.
Qed.

Lemma huber_nonneg (x : Q) : 0 <= huber 1 x.
Proof.
  destruct (Qlt_le_dec (Qabs x) 1) as [Hlt|Hge].
  - rewrite (huber_quadratic x Hlt), Qabs_square.
    pose proof (Qabs_nonneg x). nra.
  - rewrite (huber_linear x Hge). lra.
Qed.

(** The two branches agree at [|x| = 1] and nowhere beyond. *)
Lemma huber_equals_quadratic (x : Q) :
  huber 1 x == (1 # 2) * x ^ 2 <-> Qabs x <= 1.
Proof.
  destruct (Qlt_le_dec (Qabs x) 1) as [Hlt|Hge].
  - split; [lra|]. intros _. apply huber_quadratic. exact Hlt.
  - rewrite (huber_linear x Hge), Qabs_square. split; intros H; nra.
Qed.
End Huber.

(** C8 (as stated, refuted): at [x = 1] the loss takes the linear branch,
    [|x| - 0.5 = 0.5], which equals [0.5 * x^2] although [|x| < 1] does not
    hold. *)
Lemma C8_huber_boundary_counterexample :
  Loss.quantile_huber_loss [1] 1 = [Loss.huber 1 1] /\
  Loss.huber 1 1 == (1 # 2) * 1 ^ 2 /\
  ~ Qabs 1 < 1.
Proof.
  split; [reflexivity|]. split.
  - vm_compute. reflexivity.
  - vm_compute. discriminate.
Qed.

(** C8 (amended): every entry of [quantile_huber_loss(x, k = 1)] is
    non-negative; it is [0.5 * x^2] when [|x| < 1] and [|x| - 0.5] when
    [|x| >= 1]; and it equals [0.5 * x^2] exactly when [|x| <= 1]. *)
Theorem C8_quantile_huber_loss_k1 (x : list Q) :
  Forall2 (fun xi yi =>
             0 <= yi /\
             (Qabs xi < 1 -> yi == (1 # 2) * xi ^ 2) /\
             (1 <= Qabs xi -> yi == Qabs xi - (1 # 2)) /\
             (yi == (1 # 2) * xi ^ 2 <-> Qabs xi <= 1))
          x (Loss.quantile_huber_loss x 1).
Proof.
  unfold Loss.quantile_huber_loss.
  induction x as [|xi x IH]; simpl; constructor; [|exact IH].
  split; [apply huber_nonneg|].
  split; [apply huber_quadratic|].
  split; [apply huber_linear|apply huber_equals_quadratic].
Qed.

(** ** The categorical projection *)

(** C1 (the code misses the aligned case): for a terminal sample with
    reward 1 on the three-atom support [0, 1, 2], every clamped target is
    the support point 1, so [b = 1], [l = u = 1] and both weights [u - b]
    and [b - l] are 0: [dist_projection] returns the zero row, whose sum is
    0 although the next-state distribution sums to 1. *)
Theorem C1_projection_loses_aligned_mass :
  Qsum [1 # 2; 1 # 4; 1 # 4] == 1 /\
  Forall (Forall (fun tz => Loss.v_min Examples.net3 <= tz
                            /\ tz <= Loss.v_max Examples.net3))
         Examples.terminal_target_z /\
  exists row,
    Loss.dist_projection Examples.net3 Examples.next_z3
      Examples.terminal_target_z (Loss.offset 1 3) = Some [row] /\
    Qsum row == 0 /\ ~ Qsum row == 1.
Proof.
  split; [vm_compute; reflexivity|]. split.
  - repeat constructor; vm_compute; discriminate.
  - eexists. split; [vm_compute; reflexivity|].
    split; [vm_compute; reflexivity|]. vm_compute. discriminate.
Qed.

(** When only some targets are aligned, exactly their share of the mass
    is lost: with targets [0.5, 1.5, 2] the last atom (mass 1/4) falls on
    the support point 2 and the projected row sums to 3/4. *)
Example projection_partial_loss :
  exists row,
    Loss.dist_projection Examples.net3 Examples.next_z3
      Examples.mixed_target_z (Loss.offset 1 3) = Some [row] /\
    tensor_eq row [1 # 4; 3 # 8; 1 # 8] /\ Qsum row == 3 # 4.
Proof.
  eexists. split; [vm_compute; reflexivity|]. split.
  - repeat constructor; vm_compute; reflexivity.
  - vm_compute. reflexivity.
Qed.

(** *** Mass of a projected row, in general *)

Section FloorCeiling.
Import Loss.

Lemma inject_Z_lt_inv (a b : Z) : inject_Z a < inject_Z b -> (a < b)%Z.
Proof. rewrite <- Zlt_Qlt. auto. Qed.

Lemma inject_Z_le_inv (a b : Z) : inject_Z a <= inject_Z b -> (a <= b)%Z.
Proof. rewrite <- Zle_Qle. auto. Qed.

Lemma inject_Z_succ (a : Z) : inject_Z (a + 1) == inject_Z a + 1.
Proof. rewrite inject_Z_plus. reflexivity. Qed.

Lemma integral_true (x : Q) : integral x = true <-> inject_Z (Qfloor x) == x.
Proof. apply Qeq_bool_iff. Qed.

Lemma Qceiling_integral (x : Q) : integral x = true -> Qceiling x = Qfloor x.
Proof.
  intros H. apply integral_true in H.
  rewrite <- H at 1. apply Qceiling_Z.
Qed.

Lemma Qceiling_not_integral (x : Q) :
  integral x = false -> Qceiling x = (Qfloor x + 1)%Z.
Proof.
  intros H.
  assert (Hne : ~ inject_Z (Qfloor x) == x).
  { intros Heq. apply integral_true in Heq. congruence. }
  pose proof (Qfloor_le x) as Hf. pose proof (Qlt_floor x) as Hf'.
  pose proof (Qle_ceiling x) as Hc. pose proof (Qceiling_lt x) as Hc'.
  rewrite inject_Z_succ in Hf'.
  assert (Hlt : (Qfloor x < Qceiling x)%Z).
  { apply inject_Z_lt_inv.
    destruct (Qlt_le_dec (inject_Z (Qfloor x)) x) as [Hs|Hs]; [lra|].
    exfalso. apply Hne. lra. }
  assert (Hle : (Qceiling x - 1 < Qfloor x + 1)%Z).
  { apply inject_Z_lt_inv. rewrite inject_Z_succ. lra. }
  lia.
Qed.

(** The two weights of the projection add up to 1, except on the grid,
    where both vanish. *)
Lemma projection_weights (x : Q) :
  (inject_Z (Qceiling x) - x) + (x - inject_Z (Qfloor x))
  == if integral x then 0 else 1.
Proof.
  destruct (integral x) eqn:Hi.
  - rewrite (Qceiling_integral x Hi). ring.
  - rewrite (Qceiling_not_integral x Hi), inject_Z_succ. ring.
Qed.

(** A clamped target falls between the first and the last bin. *)
Lemma bin_range (net : C51Network) (tz : Q) :
  support_ok net -> v_min net <= tz -> tz <= v_max net ->
  (0 <= Qfloor (grid_position net tz) < Z.of_nat (num_atoms net))%Z /\
  (0 <= Qceiling (grid_position net tz) < Z.of_nat (num_atoms net))%Z.
Proof.
  intros (Hn & Hdz & Hspan & _) Hlo Hhi. unfold grid_position.
  set (b := (tz - v_min net) / delta_z net).
  assert (H0 : inject_Z 0 <= b).
  { apply Qle_shift_div_l; [exact Hdz|]. change (inject_Z 0) with 0. lra. }
  assert (H1 : b <= inject_Z (Z.of_nat (num_atoms net) - 1)).
  { apply Qle_shift_div_r; [exact Hdz|]. lra. }
  pose proof (Qfloor_resp_le _ _ H0) as Hf. rewrite Qfloor_Z in Hf.
  pose proof (Qceiling_resp_le _ _ H1) as Hc. rewrite Qceiling_Z in Hc.
  pose proof (inject_Z_le_inv _ _ (Qle_floor_ceiling b)) as Hfc.
  lia.
Qed.

End FloorCeiling.

Section IndexAdd.
Import Loss.

Lemma Qsum_insert (l : list Q) (j : nat) (old x : Q) :
  l !! j = Some old -> Qsum (<[j := x]> l) == Qsum l - old + x.
Proof.
  revert j. induction l as [|y l IH]; intros [|j] H; simpl in H;
    try discriminate.
  - injection H as ->. simpl. rewrite !Qsum_cons. ring.
  - simpl. rewrite !Qsum_cons, (IH j H). ring.
Qed.

Lemma seg_sum_insert (s n : nat) (out : list Q) (i : nat) (old v : Q) :
  out !! i = Some old ->
  seg_sum s n (<[i := old + v]> out)
  == seg_sum s n out + seg_part s n (Z.of_nat i) v.
Proof.
  intros Hold. unfold seg_sum, seg_part, in_seg.
  destruct (decide _) as [Hin|Hout].
  - rewrite drop_insert_ge by lia. rewrite take_insert_lt by lia.
    rewrite (Qsum_insert _ (i - s) old).
    + ring.
    + rewrite lookup_take_lt by lia. rewrite lookup_drop.
      replace (s + (i - s))%nat with i by lia. exact Hold.
  - destruct (decide (i < s)%nat) as [Hlt|Hge].
    + rewrite drop_insert_lt by lia. ring.
    + rewrite drop_insert_ge by lia. rewrite take_insert_ge by lia. ring.
Qed.

(** [index_add_] keeps the size of the tensor and adds to each segment
    the sources whose index falls into it. *)
Lemma index_add_seg (s n : nat) (index : list Z) (source out out' : list Q) :
  index_add_ out index source = Some out' ->
  length out' = length out /\
  seg_sum s n out'
  == seg_sum s n out + Qsum (zip_with (seg_part s n) index source).
Proof.
  revert source out. induction index as [|i index IH];
    intros [|v source] out H; simpl in H; try discriminate.
  - injection H as <-. split; [reflexivity|].
    simpl. change (Qsum []) with 0. ring.
  - destruct (decide (0 <= i < Z.of_nat (length out))%Z) as [Hr|];
      [|discriminate].
    destruct (out !! Z.to_nat i) as [old|] eqn:Hold; [|discriminate].
    simpl in H. destruct (IH _ _ H) as [Hlen Hsum].
    rewrite length_insert in Hlen. split; [exact Hlen|].
    rewrite Hsum, (seg_sum_insert s n out (Z.to_nat i) old v Hold).
    rewrite Z2Nat.id by lia. simpl. rewrite Qsum_cons. ring.
Qed.

(** [index_add_] succeeds when every index is in range and there is one
    source per index. *)
Lemma index_add_runs (index : list Z) (source out : list Q) :
  length index = length source ->
  Forall (fun i => (0 <= i < Z.of_nat (length out))%Z) index ->
  is_Some (index_add_ out index source).
Proof.
  revert source out. induction index as [|i index IH];
    intros [|v source] out Hlen Hr; simpl in Hlen; try discriminate;
    simpl; [eauto|].
  apply Forall_cons in Hr as [Hi Hr].
  destruct (decide _) as [_|Hn]; [|contradiction].
  destruct (lookup_lt_is_Some_2 out (Z.to_nat i)) as [old Hold]; [lia|].
  rewrite Hold. simpl. apply IH; [lia|].
  rewrite length_insert. exact Hr.
Qed.

End IndexAdd.

Section RowStructure.
Import Loss.

Lemma row_contrib (n k i : nat) (irow : list Z) (srow : list Q) :
  length irow = length srow ->
  Forall (in_seg (k * n) n) irow ->
  Qsum (zip_with (seg_part (i * n) n) irow srow)
  == if decide (i = k) then Qsum srow else 0.
Proof.
  revert srow. induction irow as [|x irow IH]; intros [|v srow] Hlen Hin;
    simpl in Hlen; try discriminate.
  - simpl. change (Qsum []) with 0. destruct (decide _); reflexivity.
  - apply Forall_cons in Hin as [Hx Hin]. simpl.
    rewrite !Qsum_cons, IH by (try lia; assumption).
    unfold seg_part, in_seg in *.
    destruct (decide (i = k)) as [->|Hne].
    + destruct (decide _) as [_|Hn]; [ring|contradiction].
    + destruct (decide _) as [Hy|_]; [exfalso; nia|ring].
Qed.

(** The sources that land in the segment of batch row [i] are those of
    row [i]. *)
Lemma row_struct_contrib (n k : nat) idxs srcs (i : nat) :
  row_struct n k idxs srcs ->
  Qsum (zip_with (seg_part (i * n) n) (concat idxs) (concat srcs))
  == if decide (k <= i)%nat
     then from_option Qsum 0 (srcs !! (i - k)%nat) else 0.
Proof.
  induction 1 as [k|k irow srow idxs srcs Hlen Hin _ IH].
  - simpl. change (Qsum []) with 0. destruct (decide _); reflexivity.
  - simpl concat. rewrite zip_with_app by exact Hlen.
    rewrite Qsum_app, IH, (row_contrib n k i irow srow Hlen Hin).
    destruct (decide (i = k)) as [->|Hne].
    + replace (k - k)%nat with O by lia. simpl.
      destruct (decide (k <= k)%nat); [|lia].
      destruct (decide (S k <= k)%nat); [lia|]. ring.
    + destruct (decide (k <= i)%nat) as [Hle|Hgt].
      * destruct (decide (S k <= i)%nat); [|lia].
        replace (i - k)%nat with (S (i - S k)) by lia. simpl. ring.
      * destruct (decide (S k <= i)%nat); [lia|]. ring.
Qed.

Lemma row_struct_range (n k : nat) idxs srcs :
  row_struct n k idxs srcs ->
  length (concat idxs) = length (concat srcs) /\
  Forall (fun i => (0 <= i < Z.of_nat ((k + length idxs) * n))%Z)
         (concat idxs).
Proof.
  induction 1 as [k|k irow srow idxs srcs Hlen Hin _ [IHl IHr]].
  - split; [reflexivity|constructor].
  - simpl concat. rewrite !length_app. split; [lia|].
    apply Forall_app. split.
    + eapply Forall_impl; [exact Hin|]. unfold in_seg. simpl length.
      intros x Hx. nia.
    + eapply Forall_impl; [exact IHr|]. simpl length.
      intros x Hx. replace (k + S (length idxs))%nat
        with (S k + length idxs)%nat by lia. exact Hx.
Qed.

(** Rows of local indices shifted by the offsets of [offset] are
    structured. *)
Lemma row_struct_build (n k : nat) (L : list (list Z)) (R : list (list Q)) :
  Forall2 (fun lrow srow =>
             length lrow = n /\ length srow = n /\
             Forall (fun x => (0 <= x < Z.of_nat n)%Z) lrow) L R ->
  row_struct n k
    (zip2d Z.add L
       (map (fun i => replicate n (Z.of_nat (i * n))) (seq k (length L))))
    R.
Proof.
  intros H. revert k.
  induction H as [|lrow srow L R (Hl & Hs & Hr) _ IH]; intros k.
  - constructor.
  - simpl. constructor.
    + rewrite length_zip_with, length_replicate. lia.
    + rewrite zip_with_replicate_r_eq by exact Hl.
      apply Forall_fmap. eapply Forall_impl; [exact Hr|].
      intros x Hx. unfold in_seg, flip, compose. simpl in Hx. lia.
    + apply IH.
Qed.

Lemma rows_lookup {A : Type} (m w : nat) (t : list A) (i : nat) :
  (i < m)%nat -> rows m w t !! i = Some (take w (drop (i * w) t)).
Proof.
  revert t i. induction m as [|m IH]; intros t i Hi; [lia|].
  destruct i as [|i]; simpl.
  - reflexivity.
  - rewrite IH by lia. rewrite drop_drop. reflexivity.
Qed.

End RowStructure.

Section ProjectionMass.
Import Loss.
Variable net : C51Network.
Hypothesis Hnet : support_ok net.

(** The tensors built by [dist_projection], row by row. *)
Lemma l_tensor_rows (target_z : list (list Q)) :
  map2d Qfloor (map2d (grid_position net) target_z)
  = map (l_row net) target_z.
Proof. unfold map2d, l_row. rewrite map_map. reflexivity. Qed.

Lemma u_tensor_rows (target_z : list (list Q)) :
  map2d Qceiling (map2d (grid_position net) target_z)
  = map (u_row net) target_z.
Proof. unfold map2d, u_row. rewrite map_map. reflexivity. Qed.

Lemma lower_source_rows (next_z target_z : list (list Q)) :
  zip2d Qmult next_z
    (zip2d (fun ui bi => inject_Z ui - bi)
       (map (u_row net) target_z) (map2d (grid_position net) target_z))
  = zip_with (lower_source_row net) next_z target_z.
Proof.
  unfold zip2d, map2d. revert target_z.
  induction next_z as [|nz next_z IH]; intros [|tz target_z]; simpl;
    try reflexivity.
  rewrite IH. reflexivity.
Qed.

Lemma upper_source_rows (next_z target_z : list (list Q)) :
  zip2d Qmult next_z
    (zip2d (fun bi li => bi - inject_Z li)
       (map2d (grid_position net) target_z) (map (l_row net) target_z))
  = zip_with (upper_source_row net) next_z target_z.
Proof.
  unfold zip2d, map2d. revert target_z.
  induction next_z as [|nz next_z IH]; intros [|tz target_z]; simpl;
    try reflexivity.
  rewrite IH. reflexivity.
Qed.

(** Both index tensors stay inside their rows. *)
Lemma projection_rows_ok (next_z target_z : list (list Q))
    (irow : list Q -> list Z) (srow : list Q -> list Q -> list Q) :
  (forall tz, irow tz = l_row net tz \/ irow tz = u_row net tz) ->
  (forall nz tz, length nz = length tz -> length (srow nz tz) = length nz) ->
  projection_input_ok net next_z target_z ->
  Forall2 (fun lrow s =>
             length lrow = num_atoms net /\ length s = num_atoms net /\
             Forall (fun x => (0 <= x < Z.of_nat (num_atoms net))%Z) lrow)
          (map irow target_z) (zip_with srow next_z target_z).
Proof.
  intros Hirow Hsrow (Hlen & Hnz & Htz). revert target_z Hlen Htz.
  induction Hnz as [|nz next_z Hn _ IH]; intros [|tz target_z] Hlen Htz;
    simpl in Hlen; try discriminate; simpl; constructor.
  - apply Forall_cons in Htz as [[Hl Hr] _].
    assert (Hboth :
      length (irow tz) = num_atoms net /\
      Forall (fun x => (0 <= x < Z.of_nat (num_atoms net))%Z) (irow tz)).
    { destruct (Hirow tz) as [-> | ->]; unfold l_row, u_row;
        rewrite !length_map; (split; [exact Hl|]);
        apply Forall_fmap, Forall_fmap;
        (eapply Forall_impl; [exact Hr|]);
        intros x [Hlo Hhi]; unfold compose;
        destruct (bin_range net x Hnet Hlo Hhi); assumption. }
    destruct Hboth as [H1 H2]. split; [exact H1|]. split; [|exact H2].
    rewrite Hsrow; congruence.
  - apply Forall_cons in Htz as [_ Htz]. apply IH; [lia|exact Htz].
Qed.

Lemma length_lower_source_row (nz tz : list Q) :
  length nz = length tz -> length (lower_source_row net nz tz) = length nz.
Proof.
  intros H. unfold lower_source_row, u_row.
  rewrite !length_zip_with, !length_map. lia.
Qed.

Lemma length_upper_source_row (nz tz : list Q) :
  length nz = length tz -> length (upper_source_row net nz tz) = length nz.
Proof.
  intros H. unfold upper_source_row, l_row.
  rewrite !length_zip_with, !length_map. lia.
Qed.

(** Each atom sends to its two bins its mass, or nothing when its target
    is on the grid. *)
Lemma row_mass (nz tz : list Q) :
  Qsum (lower_source_row net nz tz) + Qsum (upper_source_row net nz tz)
  == kept_mass net nz tz.
Proof.
  unfold lower_source_row, upper_source_row, kept_mass, u_row, l_row.
  revert tz. induction nz as [|p nz IH]; intros [|t tz]; cbn [zip_with map];
    try (change (Qsum []) with 0; ring).
  rewrite !Qsum_cons, <- IH.
  pose proof (projection_weights (grid_position net t)) as Hw.
  assert (Hp : p * (inject_Z (Qceiling (grid_position net t)) - grid_position net t)
               + p * (grid_position net t - inject_Z (Qfloor (grid_position net t)))
               == p * (if integral (grid_position net t) then 0 else 1)).
  { rewrite <- Hw. ring. }
  destruct (integral (grid_position net t)); lra.
Qed.

Lemma length_flat_rows (n : nat) (t : list (list Q)) :
  Forall (fun row => length row = n) t ->
  length (flat t) = (length t * n)%nat.
Proof.
  unfold flat. induction 1 as [|row t Hrow _ IH]; simpl; [reflexivity|].
  rewrite length_app, IH, Hrow. reflexivity.
Qed.

Lemma seg_sum_zeros (s n m : nat) : seg_sum s n (replicate m 0) == 0.
Proof.
  unfold seg_sum. rewrite drop_replicate, take_replicate.
  induction (Nat.min n (m - s)) as [|k IH]; simpl.
  - reflexivity.
  - rewrite Qsum_cons, IH. ring.
Qed.

End ProjectionMass.

Section ProjectionRuns.
Import Loss.

Lemma length_rows {A : Type} (m w : nat) (t : list A) : length (rows m w t) = m.
Proof. revert t. induction m as [|m IH]; intros t; simpl; [|rewrite IH]; reflexivity. Qed.

Lemma offset_rows (b n : nat) (L : list (list Z)) :
  length L = b ->
  offset b n
  = map (fun i => replicate n (Z.of_nat (i * n))) (seq 0 (length L)).
Proof. intros ->. reflexivity. Qed.

(** One [index_add_] of [dist_projection]: it succeeds on structured rows
    and adds to the segment of each batch row the sources of that row. *)
Lemma index_add_rows (n b : nat) (out : list Q)
    (L : list (list Z)) (R : list (list Q)) :
  length out = (b * n)%nat -> length L = b ->
  Forall2 (fun lrow srow =>
             length lrow = n /\ length srow = n /\
             Forall (fun x => (0 <= x < Z.of_nat n)%Z) lrow) L R ->
  exists out',
    index_add_ out (flat (zip2d Z.add L (offset b n))) (flat R) = Some out' /\
    length out' = (b * n)%nat /\
    forall i : nat,
      seg_sum (i * n) n out'
      == seg_sum (i * n) n out + from_option Qsum 0 (R !! i).
Proof.
  intros Hout HL HF.
  pose proof (row_struct_build n 0 L R HF) as RS.
  rewrite <- (offset_rows b n L HL) in RS.
  destruct (row_struct_range _ _ _ _ RS) as [Hlen Hrange].
  assert (Hrows : length (zip2d Z.add L (offset b n)) = b).
  { unfold zip2d, offset. rewrite length_zip_with, length_map, length_seq. lia. }
  destruct (index_add_runs (flat (zip2d Z.add L (offset b n))) (flat R) out)
    as [out' Hrun].
  { exact Hlen. }
  { eapply Forall_impl; [exact Hrange|]. intros x Hx. simpl in Hx.
    rewrite Hrows in Hx. rewrite Hout. exact Hx. }
  exists out'. split; [exact Hrun|]. split.
  - destruct (index_add_seg 0 0 _ _ _ _ Hrun) as [Hl _]. congruence.
  - intros i. destruct (index_add_seg (i * n) n _ _ _ _ Hrun) as [_ Hs].
    rewrite Hs. unfold flat. rewrite (row_struct_contrib n 0 _ _ i RS).
    destruct (decide (0 <= i)%nat); [|lia].
    rewrite Nat.sub_0_r. reflexivity.
Qed.

End ProjectionRuns.

(** X1: on the input that [CategoricalLoss.__call__] builds (clamped targets,
    [num_atoms] entries per row) over a uniform support,
    [dist_projection] returns a tensor of the shape of [next_z], and the
    sum of each projected row is the mass of the atoms of that row whose
    target is not exactly a support point. *)
Theorem dist_projection_row_mass
    (net : Loss.C51Network) (next_z target_z : list (list Q)) :
  Loss.support_ok net ->
  Loss.projection_input_ok net next_z target_z ->
  exists proj,
    Loss.dist_projection net next_z target_z
      (Loss.offset (length next_z) (Loss.num_atoms net)) = Some proj /\
    length proj = length next_z /\
    forall (i : nat) nz tz,
      next_z !! i = Some nz -> target_z !! i = Some tz ->
      exists row,
        proj !! i = Some row /\ length row = Loss.num_atoms net /\
        Qsum row == Loss.kept_mass net nz tz.
Proof.
  intros Hnet Hin. pose proof Hin as (Hlen & Hnz & Htz).
  set (N := Loss.num_atoms net) in *. set (B := length next_z) in *.
  unfold Loss.dist_projection. cbv zeta.
  change (Loss.map2d (fun tz => (tz - Loss.v_min net) / Loss.delta_z net) target_z)
    with (Loss.map2d (Loss.grid_position net) target_z).
  rewrite l_tensor_rows, u_tensor_rows, lower_source_rows, upper_source_rows.
  destruct (index_add_rows N B
              (replicate (length (Loss.flat next_z)) 0)
              (map (Loss.l_row net) target_z)
              (zip_with (Loss.lower_source_row net) next_z target_z))
    as (out1 & E1 & Hl1 & Hs1).
  { rewrite length_replicate. apply length_flat_rows. exact Hnz. }
  { rewrite length_map. exact Hlen. }
  { apply (projection_rows_ok net Hnet); [auto| |exact Hin].
    apply length_lower_source_row. }
  destruct (index_add_rows N B out1
              (map (Loss.u_row net) target_z)
              (zip_with (Loss.upper_source_row net) next_z target_z))
    as (out2 & E2 & Hl2 & Hs2).
  { exact Hl1. }
  { rewrite length_map. exact Hlen. }
  { apply (projection_rows_ok net Hnet); [auto| |exact Hin].
    apply length_upper_source_row. }
  rewrite E1. simpl. rewrite E2. simpl.
  eexists. split; [reflexivity|]. split; [apply length_rows|].
  intros i nz tz Hi Ht.
  assert (HiB : (i < B)%nat) by (apply lookup_lt_Some in Hi; exact Hi).
  assert (Hw : match next_z with row :: _ => length row | [] => 0%nat end = N).
  { destruct next_z as [|row next_z']; [rewrite lookup_nil in Hi; discriminate|].
    apply Forall_cons in Hnz as [Hrow _]. exact Hrow. }
  rewrite Hw, rows_lookup by exact HiB.
  eexists. split; [reflexivity|]. split.
  - rewrite length_take, length_drop, Hl2. nia.
  - fold (Loss.seg_sum (i * N) N out2).
    rewrite Hs2, Hs1, seg_sum_zeros.
    rewrite !lookup_zip_with, Hi, Ht. simpl.
    rewrite <- (row_mass net nz tz). ring.
Qed.

(** *** Consequences for the categorical loss *)

Section ProjectionCorollaries.
Import Loss.

Lemma kept_mass_off_grid (net : C51Network) (nz tz : list Q) :
  length nz = length tz ->
  Forall (fun t => integral (grid_position net t) = false) tz ->
  kept_mass net nz tz == Qsum nz.
Proof.
  unfold kept_mass. intros Hlen Hoff. revert nz Hlen.
  induction Hoff as [|t tz Ht _ IH]; intros [|p nz] Hlen;
    simpl in Hlen; try discriminate; cbn [zip_with].
  - reflexivity.
  - rewrite !Qsum_cons, Ht, IH by lia. reflexivity.
Qed.

Lemma kept_mass_on_grid (net : C51Network) (nz tz : list Q) :
  Forall (fun t => integral (grid_position net t) = true) tz ->
  kept_mass net nz tz == 0.
Proof.
  unfold kept_mass. intros Hon. revert nz.
  induction Hon as [|t tz Ht _ IH]; intros [|p nz]; cbn [zip_with];
    try reflexivity.
  rewrite Qsum_cons, Ht, IH. ring.
Qed.

Lemma clamp_range (lo hi x : Q) :
  lo <= hi -> lo <= clamp lo hi x /\ clamp lo hi x <= hi.
Proof.
  intros H. unfold clamp.
  destruct (Qlt_le_dec x lo); destruct (Qlt_le_dec hi _); split; lra.
Qed.

Lemma clamp_Qeq (lo hi x y : Q) : x == y -> clamp lo hi x == clamp lo hi y.
Proof.
  intros H. unfold clamp.
  destruct (Qlt_le_dec x lo); destruct (Qlt_le_dec y lo); try lra;
    repeat destruct (Qlt_le_dec hi _); lra.
Qed.

Lemma integral_Qeq (x y : Q) : x == y -> integral x = integral y.
Proof.
  intros H. unfold integral. rewrite (Qfloor_comp x y H).
  destruct (Qeq_bool (inject_Z (Qfloor y)) y) eqn:E.
  - apply Qeq_bool_iff. apply Qeq_bool_iff in E. lra.
  - destruct (Qeq_bool (inject_Z (Qfloor y)) x) eqn:E'; [|reflexivity].
    apply Qeq_bool_iff in E'. assert (E2 : inject_Z (Qfloor y) == y) by lra.
    apply Qeq_bool_iff in E2. congruence.
Qed.

Lemma grid_position_Qeq (net : C51Network) (x y : Q) :
  x == y -> grid_position net x == grid_position net y.
Proof. intros H. unfold grid_position. rewrite H. reflexivity. Qed.

Lemma support_ok_range (net : C51Network) :
  support_ok net -> v_min net <= v_max net.
Proof.
  intros (Hn & Hdz & Hspan & _).
  assert (H : 0 <= inject_Z (Z.of_nat (num_atoms net) - 1)).
  { change 0 with (inject_Z 0). rewrite <- Zle_Qle. lia. }
  nra.
Qed.

End ProjectionCorollaries.

(** X2: off the grid the projection preserves mass: a batch row all of whose
    targets lie strictly between support points is projected to a row with
    the sum of the next-state row. *)
Theorem dist_projection_off_grid_mass
    (net : Loss.C51Network) (next_z target_z : list (list Q))
    (i : nat) (nz tz : list Q) :
  Loss.support_ok net ->
  Loss.projection_input_ok net next_z target_z ->
  next_z !! i = Some nz -> target_z !! i = Some tz ->
  Forall (fun t => Loss.integral (Loss.grid_position net t) = false) tz ->
  exists proj row,
    Loss.dist_projection net next_z target_z
      (Loss.offset (length next_z) (Loss.num_atoms net)) = Some proj /\
    proj !! i = Some row /\ Qsum row == Qsum nz.
Proof.
  intros Hnet Hin Hi Ht Hoff.
  destruct (dist_projection_row_mass net next_z target_z Hnet Hin)
    as (proj & Hrun & _ & Hrows).
  destruct (Hrows i nz tz Hi Ht) as (row & Hrow & _ & Hsum).
  exists proj, row. split; [exact Hrun|]. split; [exact Hrow|].
  rewrite Hsum. apply kept_mass_off_grid; [|exact Hoff].
  destruct Hin as (_ & Hnz & Htz).
  pose proof (Forall_lookup_1 _ _ _ _ Hnz Hi) as H1.
  pose proof (Forall_lookup_1 _ _ _ _ Htz Ht) as [H2 _].
  simpl in H1. congruence.
Qed.

(** X3: the clamped target tensor of [CategoricalLoss.__call__] has one row
    per sample, [len(support)] entries per row, all within
    [[v_min, v_max]]. *)
Theorem categorical_target_z_clamped
    (net : Loss.C51Network) (rewards dones : list Q) (nsg : Q) :
  Loss.v_min net <= Loss.v_max net ->
  length rewards = length dones ->
  length (Loss.categorical_target_z net rewards dones nsg) = length rewards /\
  Forall (fun row =>
            length row = length (Loss.support net) /\
            Forall (fun tz => Loss.v_min net <= tz /\ tz <= Loss.v_max net) row)
         (Loss.categorical_target_z net rewards dones nsg).
Proof.
  intros Hrange Hlen.
  unfold Loss.categorical_target_z, Loss.categorical_target_z_raw. split.
  - rewrite !length_map, length_zip_with. lia.
  - rewrite map_map. apply Forall_fmap, Forall_forall. intros rd _.
    unfold compose. split.
    + rewrite !length_map. reflexivity.
    + apply Forall_fmap, Forall_fmap, Forall_forall. intros z _.
      unfold compose. apply clamp_range. exact Hrange.
Qed.

Section TerminalSamples.
Import CommonUtils Loss.

Lemma categorical_target_row (net : C51Network) (rewards : list Q)
    (dones : list bool) (nsg : Q) (i : nat) (r : Q) (d : bool) :
  rewards !! i = Some r -> dones !! i = Some d ->
  categorical_target_z net rewards (np2tensor_bool dones) nsg !! i
  = Some (map (clamp (v_min net) (v_max net))
            (map (bootstrap_target r (bool_to_float d) nsg) (support net))).
Proof.
  intros Hr Hd. unfold categorical_target_z, categorical_target_z_raw.
  rewrite !list_lookup_fmap.
  rewrite (lookup_zip_some rewards _ i r _ Hr (lookup_np2tensor_bool dones i d Hd)).
  reflexivity.
Qed.

Lemma categorical_input_ok (net : C51Network) (rewards : list Q)
    (dones : list bool) (nsg : Q) (next_z : list (list Q)) :
  support_ok net ->
  length rewards = length next_z -> length dones = length next_z ->
  Forall (fun row => length row = num_atoms net) next_z ->
  projection_input_ok net next_z
    (categorical_target_z net rewards (np2tensor_bool dones) nsg).
Proof.
  intros Hnet Hr Hd Hnz.
  destruct (categorical_target_z_clamped net rewards (np2tensor_bool dones) nsg)
    as [Hlen Hrows].
  { apply support_ok_range. exact Hnet. }
  { unfold np2tensor_bool. rewrite length_map. lia. }
  split; [lia|]. split; [exact Hnz|].
  destruct Hnet as (_ & _ & _ & Hsup & _).
  eapply Forall_impl; [exact Hrows|]. intros row [H1 H2].
  split; [congruence|exact H2].
Qed.

End TerminalSamples.

(** X4: lines 105-108 of [CategoricalLoss.__call__] on a batch: the projection
    of the clamped target always succeeds; and for a terminal sample
    ([done = True]) whose clamped reward is a support point, the projected
    row sums to 0, whatever the next-state distribution. *)
Theorem categorical_terminal_row_vanishes
    (net : Loss.C51Network) (rewards : list Q) (dones : list bool) (nsg : Q)
    (next_z : list (list Q)) :
  Loss.support_ok net ->
  length rewards = length next_z -> length dones = length next_z ->
  Forall (fun row => length row = Loss.num_atoms net) next_z ->
  exists proj,
    Loss.dist_projection net next_z
      (Loss.categorical_target_z net rewards
         (CommonUtils.np2tensor_bool dones) nsg)
      (Loss.offset (length next_z) (Loss.num_atoms net)) = Some proj /\
    forall (i : nat) (r : Q),
      rewards !! i = Some r -> dones !! i = Some true ->
      Loss.integral
        (Loss.grid_position net
           (Loss.clamp (Loss.v_min net) (Loss.v_max net) r)) = true ->
      exists row, proj !! i = Some row /\ Qsum row == 0.
Proof.
  intros Hnet Hr Hd Hnz.
  pose proof (categorical_input_ok net rewards dones nsg next_z Hnet Hr Hd Hnz)
    as Hin.
  destruct (dist_projection_row_mass net next_z _ Hnet Hin)
    as (proj & Hrun & _ & Hrows).
  exists proj. split; [exact Hrun|].
  intros i r Hri Hdi Hgrid.
  destruct (lookup_lt_is_Some_2 next_z i) as [nz Hnzi].
  { apply lookup_lt_Some in Hri. lia. }
  pose proof (categorical_target_row net rewards dones nsg i r true Hri Hdi)
    as Hrow.
  destruct (Hrows i nz _ Hnzi Hrow) as (row & Hp & _ & Hsum).
  exists row. split; [exact Hp|]. rewrite Hsum.
  apply kept_mass_on_grid.
  apply Forall_fmap, Forall_fmap, Forall_forall. intros z _. unfold compose.
  erewrite integral_Qeq; [exact Hgrid|].
  apply grid_position_Qeq, clamp_Qeq, bootstrap_target_done.
Qed.

Lemma net3_support_ok : Loss.support_ok Examples.net3.
Proof.
  split; [simpl; lia|]. split; [reflexivity|]. split; [reflexivity|].
  split; [reflexivity|].
  intros [|[|[|i]]] Hi; try reflexivity. simpl in Hi. lia.
Defined.

Lemma batch_input_ok :
  Loss.projection_input_ok Examples.net3 Examples.next_z_batch
    Examples.off_grid_target_z.
Proof.
  split; [reflexivity|]. split.
  - repeat constructor.
  - repeat constructor; vm_compute; discriminate.
Defined.

Lemma dist_projection_row_mass_witness :
  exists proj,
    Loss.dist_projection Examples.net3 Examples.next_z_batch
      Examples.off_grid_target_z
      (Loss.offset (length Examples.next_z_batch)
         (Loss.num_atoms Examples.net3)) = Some proj /\
    length proj = length Examples.next_z_batch /\
    forall (i : nat) nz tz,
      Examples.next_z_batch !! i = Some nz ->
      Examples.off_grid_target_z !! i = Some tz ->
      exists row,
        proj !! i = Some row /\ length row = Loss.num_atoms Examples.net3 /\
        Qsum row == Loss.kept_mass Examples.net3 nz tz.
Proof.
  apply (dist_projection_row_mass Examples.net3 Examples.next_z_batch
           Examples.off_grid_target_z).
  - exact net3_support_ok.
  - exact batch_input_ok.
Defined.

Lemma dist_projection_off_grid_mass_witness :
  exists proj row,
    Loss.dist_projection Examples.net3 Examples.next_z_batch
      Examples.off_grid_target_z
      (Loss.offset (length Examples.next_z_batch)
         (Loss.num_atoms Examples.net3)) = Some proj /\
    proj !! 1%nat = Some row /\ Qsum row == Qsum [1 # 3; 1 # 3; 1 # 3].
Proof.
  apply (dist_projection_off_grid_mass Examples.net3 Examples.next_z_batch
           Examples.off_grid_target_z 1 [1 # 3; 1 # 3; 1 # 3]
           [1 # 3; 1 # 2; 5 # 3]).
  - exact net3_support_ok.
  - exact batch_input_ok.
  - reflexivity.
  - reflexivity.
  - repeat constructor.
Defined.

Lemma categorical_target_z_clamped_witness :
  length (Loss.categorical_target_z Examples.net3 [5; -3] [0; 1] (1 # 2))
  = length [5; -3] /\
  Forall (fun row =>
            length row = length (Loss.support Examples.net3) /\
            Forall (fun tz => Loss.v_min Examples.net3 <= tz
                              /\ tz <= Loss.v_max Examples.net3) row)
         (Loss.categorical_target_z Examples.net3 [5; -3] [0; 1] (1 # 2)).
Proof.
  apply (categorical_target_z_clamped Examples.net3 [5; -3] [0; 1] (1 # 2)).
  - vm_compute. discriminate.
  - reflexivity.
Defined.

Lemma categorical_terminal_row_vanishes_witness :
  exists proj,
    Loss.dist_projection Examples.net3 Examples.next_z_batch
      (Loss.categorical_target_z Examples.net3 [1 # 3; 5]
         (CommonUtils.np2tensor_bool [false; true]) (1 # 2))
      (Loss.offset (length Examples.next_z_batch)
         (Loss.num_atoms Examples.net3)) = Some proj /\
    forall (i : nat) (r : Q),
      [1 # 3; 5] !! i = Some r -> [false; true] !! i = Some true ->
      Loss.integral
        (Loss.grid_position Examples.net3
           (Loss.clamp (Loss.v_min Examples.net3)
              (Loss.v_max Examples.net3) r)) = true ->
      exists row, proj !! i = Some row /\ Qsum row == 0.
Proof.
  apply (categorical_terminal_row_vanishes Examples.net3 [1 # 3; 5]
           [false; true] (1 # 2) Examples.next_z_batch).
  - exact net3_support_ok.
  - reflexivity.
  - reflexivity.
  - repeat constructor.
Defined.

Section ProjectionSign.
Import Loss.

Lemma index_add_nonneg (index : list Z) (source out out' : list Q) :
  index_add_ out index source = Some out' ->
  Forall (fun x => 0 <= x) out -> Forall (fun x => 0 <= x) source ->
  Forall (fun x => 0 <= x) out'.
Proof.
  revert source out. induction index as [|i index IH];
    intros [|v source] out H Hout Hsrc; simpl in H; try discriminate.
  - injection H as <-. exact Hout.
  - destruct (decide _) in H; [|discriminate].
    destruct (out !! Z.to_nat i) as [old|] eqn:Hold; [|discriminate].
    simpl in H. apply Forall_cons in Hsrc as [Hv Hsrc].
    apply (IH _ _ H); [|exact Hsrc].
    apply Forall_insert; [exact Hout|].
    pose proof (Forall_lookup_1 _ _ _ _ Hout Hold) as Ho. simpl in Ho. lra.
Qed.

Lemma lower_source_row_nonneg (net : C51Network) (nz tz : list Q) :
  Forall (fun x => 0 <= x) nz ->
  Forall (fun x => 0 <= x) (lower_source_row net nz tz).
Proof.
  unfold lower_source_row, u_row. intros Hnz. revert tz.
  induction Hnz as [|p nz Hp _ IH]; intros [|t tz]; cbn [zip_with map];
    constructor; [|apply IH].
  pose proof (Qle_ceiling (grid_position net t)). nra.
Qed.

Lemma upper_source_row_nonneg (net : C51Network) (nz tz : list Q) :
  Forall (fun x => 0 <= x) nz ->
  Forall (fun x => 0 <= x) (upper_source_row net nz tz).
Proof.
  unfold upper_source_row, l_row. intros Hnz. revert tz.
  induction Hnz as [|p nz Hp _ IH]; intros [|t tz]; cbn [zip_with map];
    constructor; [|apply IH].
  pose proof (Qfloor_le (grid_position net t)). nra.
Qed.

Lemma source_rows_nonneg (row_of : list Q -> list Q -> list Q)
    (next_z target_z : list (list Q)) :
  (forall nz tz, Forall (fun x => 0 <= x) nz ->
                 Forall (fun x => 0 <= x) (row_of nz tz)) ->
  Forall (Forall (fun x => 0 <= x)) next_z ->
  Forall (fun x => 0 <= x) (flat (zip_with row_of next_z target_z)).
Proof.
  intros Hrow Hnz. unfold flat. revert target_z.
  induction Hnz as [|nz next_z Hn _ IH]; intros [|tz target_z]; simpl;
    try constructor.
  apply Forall_app. split; [apply Hrow, Hn|apply IH].
Qed.

Lemma rows_nonneg (m w : nat) (t : list Q) :
  Forall (fun x => 0 <= x) t ->
  Forall (Forall (fun x => 0 <= x)) (rows m w t).
Proof.
  revert t. induction m as [|m IH]; intros t Ht; simpl; constructor.
  - apply Forall_take. exact Ht.
  - apply IH, Forall_drop. exact Ht.
Qed.

Lemma kept_mass_le (net : C51Network) (nz tz : list Q) :
  length nz = length tz ->
  Forall (fun x => 0 <= x) nz -> kept_mass net nz tz <= Qsum nz.
Proof.
  unfold kept_mass. intros Hlen Hnz. revert tz Hlen.
  induction Hnz as [|p nz Hp _ IH]; intros [|t tz] Hlen; simpl in Hlen;
    try discriminate; cbn [zip_with].
  rewrite !Qsum_cons. specialize (IH tz ltac:(lia)).
  destruct (integral (grid_position net t)); lra.
Qed.

End ProjectionSign.

(** X20: on the input that [CategoricalLoss.__call__] builds, when the
    next-state probabilities are non-negative, every entry of the projected
    tensor is non-negative and no projected row sums to more than its
    next-state row: the projection never creates mass. *)
Theorem dist_projection_nonneg_bounded
    (net : Loss.C51Network) (next_z target_z : list (list Q)) :
  Loss.support_ok net ->
  Loss.projection_input_ok net next_z target_z ->
  Forall (Forall (fun x => 0 <= x)) next_z ->
  exists proj,
    Loss.dist_projection net next_z target_z
      (Loss.offset (length next_z) (Loss.num_atoms net)) = Some proj /\
    Forall (Forall (fun x => 0 <= x)) proj /\
    forall (i : nat) nz row,
      next_z !! i = Some nz -> proj !! i = Some row -> Qsum row <= Qsum nz.
Proof.
  intros Hnet Hin Hpos.
  destruct (dist_projection_row_mass net next_z target_z Hnet Hin)
    as (proj & Hrun & Hlen & Hrows).
  exists proj. split; [exact Hrun|]. split.
  - unfold Loss.dist_projection in Hrun. cbv zeta in Hrun.
    change (Loss.map2d (fun tz => (tz - Loss.v_min net) / Loss.delta_z net) target_z)
      with (Loss.map2d (Loss.grid_position net) target_z) in Hrun.
    rewrite l_tensor_rows, u_tensor_rows, lower_source_rows, upper_source_rows
      in Hrun.
    destruct (Loss.index_add_ (replicate _ 0) _ _) as [out1|] eqn:E1;
      [|discriminate]. simpl in Hrun.
    destruct (Loss.index_add_ out1 _ _) as [out2|] eqn:E2; [|discriminate].
    simpl in Hrun. injection Hrun as <-.
    apply rows_nonneg.
    apply (index_add_nonneg _ _ _ _ E2).
    + apply (index_add_nonneg _ _ _ _ E1).
      * apply Forall_replicate. lra.
      * apply source_rows_nonneg; [apply lower_source_row_nonneg|exact Hpos].
    + apply source_rows_nonneg; [apply upper_source_row_nonneg|exact Hpos].
  - intros i nz row Hi Hrow.
    destruct Hin as (Hl & Hnz & Htz).
    destruct (lookup_lt_is_Some_2 target_z i) as [tz Htzi].
    { apply lookup_lt_Some in Hi. lia. }
    destruct (Hrows i nz tz Hi Htzi) as (row' & Hrow' & _ & Hsum).
    assert (row' = row) by congruence. subst row'.
    rewrite Hsum. apply kept_mass_le.
    + pose proof (Forall_lookup_1 _ _ _ _ Hnz Hi) as H1.
      pose proof (Forall_lookup_1 _ _ _ _ Htz Htzi) as [H2 _].
      simpl in H1. congruence.
    + exact (Forall_lookup_1 _ _ _ _ Hpos Hi).
Qed.

Lemma dist_projection_nonneg_bounded_witness :
  exists proj,
    Loss.dist_projection Examples.net3 Examples.next_z_batch
      Examples.off_grid_target_z
      (Loss.offset (length Examples.next_z_batch)
         (Loss.num_atoms Examples.net3)) = Some proj /\
    Forall (Forall (fun x => 0 <= x)) proj /\
    forall (i : nat) nz row,
      Examples.next_z_batch !! i = Some nz -> proj !! i = Some row ->
      Qsum row <= Qsum nz.
Proof.
  apply (dist_projection_nonneg_bounded Examples.net3 Examples.next_z_batch
           Examples.off_grid_target_z).
  - exact net3_support_ok.
  - exact batch_input_ok.
  - repeat constructor; vm_compute; discriminate.
Defined.

(** ** Further properties of the quantile regression loss *)

Section QuantileLoss.
Import Loss.

Lemma Qsum_nonneg (l : list Q) : Forall (fun x => 0 <= x) l -> 0 <= Qsum l.
Proof.
  induction 1 as [|x l Hx _ IH]; [change (Qsum []) with 0; lra|].
  rewrite Qsum_cons. lra.
Qed.

Lemma Qsum_zero (l : list Q) : Forall (fun x => x == 0) l -> Qsum l == 0.
Proof.
  induction 1 as [|x l Hx _ IH]; [reflexivity|].
  rewrite Qsum_cons, Hx, IH. reflexivity.
Qed.

Lemma Qdiv_nonneg (a b : Q) : 0 <= a -> 0 <= b -> 0 <= a / b.
Proof.
  intros Ha Hb. unfold Qdiv.
  apply Qmult_le_0_compat; [exact Ha|]. apply Qinv_le_0_compat. exact Hb.
Qed.

Lemma huber_nonneg_k (k x : Q) : 0 <= k -> 0 <= huber k x.
Proof.
  intros Hk. unfold huber.
  destruct (Qlt_le_dec (Qabs x) k) as [Hlt|Hge].
  - rewrite Qabs_square. pose proof (Qabs_nonneg x). nra.
  - nra.
Qed.

Lemma huber_even (k x : Q) : huber k (- x) == huber k x.
Proof.
  unfold huber. pose proof (Qabs_opp x) as Ho.
  destruct (Qlt_le_dec (Qabs (- x)) k); destruct (Qlt_le_dec (Qabs x) k);
    try lra.
  rewrite Ho. reflexivity.
Qed.

Lemma huber_zero (x : Q) : x == 0 -> huber 1 x == 0.
Proof.
  intros Hx. rewrite huber_quadratic.
  - change (x ^ 2) with (x * x). rewrite Hx. ring.
  - rewrite Hx. reflexivity.
Qed.

Lemma qr_terms_nonneg (taus target_z z_dists : list Q) :
  Forall (fun x => 0 <= x) (qr_terms taus target_z z_dists).
Proof.
  unfold qr_terms, quantile_huber_loss. cbv zeta.
  generalize (qr_distance target_z z_dists) as ds. intros ds. revert taus.
  induction ds as [|d ds IH]; intros [|tau taus]; simpl; constructor.
  - apply Qmult_le_0_compat; [apply huber_nonneg|apply Qabs_nonneg].
  - apply IH.
Qed.

Lemma qr_terms_zero (taus target_z z_dists : list Q) :
  tensor_eq target_z z_dists ->
  Forall (fun x => x == 0) (qr_terms taus target_z z_dists).
Proof.
  unfold qr_terms, quantile_huber_loss, qr_distance. cbv zeta.
  intros Heq. revert taus.
  induction Heq as [|t z target_z z_dists Htz _ IH]; intros [|tau taus];
    simpl; constructor.
  - rewrite (huber_zero (t - z)) by lra. ring.
  - apply IH.
Qed.

End QuantileLoss.

(** X12: for every [k >= 0] the entries of [quantile_huber_loss(x, k)] are
    non-negative, and the loss is even: negating the input does not change
    it. *)
Theorem quantile_huber_loss_nonneg_even (x : list Q) (k : Q) :
  0 <= k ->
  Forall (fun y => 0 <= y) (Loss.quantile_huber_loss x k) /\
  tensor_eq (Loss.quantile_huber_loss (map Qopp x) k)
            (Loss.quantile_huber_loss x k).
Proof.
  intros Hk. unfold Loss.quantile_huber_loss. split.
  - apply Forall_fmap, Forall_forall. intros xi _. apply huber_nonneg_k, Hk.
  - induction x as [|xi x IH]; simpl; constructor; [apply huber_even|exact IH].
Qed.

Lemma quantile_huber_loss_nonneg_even_witness :
  Forall (fun y => 0 <= y) (Loss.quantile_huber_loss [-3; 1 # 2; 2] 2) /\
  tensor_eq (Loss.quantile_huber_loss (map Qopp [-3; 1 # 2; 2]) 2)
            (Loss.quantile_huber_loss [-3; 1 # 2; 2] 2).
Proof.
  apply (quantile_huber_loss_nonneg_even [-3; 1 # 2; 2] 2).
  vm_compute. discriminate.
Defined.

(** X13: the per-sample quantile regression loss (lines 63-68 of
    [QRLoss.__call__]) is non-negative for every sample, whatever the
    quantile fractions, and it is 0 for a sample whose target quantiles
    equal its current quantiles. *)
Theorem qr_loss_nonneg_zero
    (taus : list Q) (target_z z_dists : list (list Q)) :
  Forall (fun y => 0 <= y) (Loss.qr_element_wise_loss taus target_z z_dists) /\
  forall (i : nat) tz zd,
    target_z !! i = Some tz -> z_dists !! i = Some zd ->
    tensor_eq tz zd ->
    exists y, Loss.qr_element_wise_loss taus target_z z_dists !! i = Some y /\
              y == 0.
Proof.
  unfold Loss.qr_element_wise_loss. split.
  - apply Forall_lookup. intros i y Hy.
    apply lookup_zip_with_Some in Hy as (tz & zd & -> & _ & _).
    unfold Loss.qr_sample_loss. cbv zeta. apply Qdiv_nonneg.
    + apply Qsum_nonneg, qr_terms_nonneg.
    + change 0 with (inject_Z 0). rewrite <- Zle_Qle. lia.
  - intros i tz zd Ht Hz Heq. eexists. split.
    + rewrite lookup_zip_with, Ht. simpl. rewrite Hz. reflexivity.
    + unfold Loss.qr_sample_loss. cbv zeta.
      rewrite (Qsum_zero _ (qr_terms_zero taus tz zd Heq)).
      unfold Qdiv. ring.
Qed.

(** ** The training loop *)

Section Deque.
Import Agent.
Context {A : Type}.
Implicit Types (d : Deque A) (x : A).

Lemma deque_append_maxlen d x : maxlen (deque_append d x) = maxlen d.
Proof.
  unfold deque_append. repeat destruct (decide _); reflexivity.
Qed.

(** Appending never shortens a bounded deque. *)
Lemma deque_append_len d x :
  (deque_len d <= maxlen d)%nat ->
  deque_len (deque_append d x) = Nat.min (S (deque_len d)) (maxlen d).
Proof.
  unfold deque_append, deque_len. intros Hle.
  destruct (decide (maxlen d = O)) as [Hz|Hnz]; [lia|].
  destruct (decide (length (items d) = maxlen d)) as [Hfull|Hnot];
    cbn [items]; rewrite length_app; change (length [x]) with 1%nat.
  - rewrite length_drop. lia.
  - lia.
Qed.

(** A full deque slides: the oldest element leaves, the new one enters. *)
Lemma deque_append_full d x :
  maxlen d <> O -> deque_len d = maxlen d ->
  items (deque_append d x) = drop 1 (items d) ++ [x].
Proof.
  unfold deque_append, deque_len. intros Hnz Hfull.
  destruct (decide (maxlen d = O)); [contradiction|].
  destruct (decide (length (items d) = maxlen d)); [reflexivity|contradiction].
Qed.
End Deque.

Section Traces.
Import Agent.
Context {T : Type}.
Implicit Types (tr : list (Event T)) (e : Event T).

Lemma count_snoc (p : Event T -> bool) tr e :
  count p (tr ++ [e]) = (count p tr + (if p e then 1 else 0))%nat.
Proof.
  unfold count. rewrite List.filter_app, length_app. simpl.
  destruct (p e); reflexivity.
Qed.

Lemma added_snoc tr e :
  added (tr ++ [e]) = added tr ++ match e with EvAdd t => [t] | _ => [] end.
Proof.
  induction tr as [|e' tr IH]; simpl.
  - destruct e; reflexivity.
  - rewrite IH. destruct e'; reflexivity.
Qed.

Lemma length_added tr : length (added tr) = count is_add tr.
Proof.
  unfold count. induction tr as [|e tr IH]; simpl; [reflexivity|].
  destruct e; simpl; auto.
Qed.
End Traces.

Create Rewrite HintDb trace.
#[export] Hint Rewrite @count_snoc @added_snoc @app_nil_r : trace.

Section Loop.
Import CommonUtils Agent.
Context {State Action B : Type}.
Context `{RB : ReplayBuffer B (Transition State Action)}.
Implicit Types (hp : HyperParams) (ei : ExperimentInfo)
  (o : EnvStep State Action) (a g : AgentState State Action B).

Lemma use_n_step_gt hp : use_n_step hp = true -> (1 < n_step hp)%nat.
Proof. unfold use_n_step. apply Nat.ltb_lt. Qed.

(** With n-step on, a window of [n_step] transitions always aggregates. *)
Lemma full_window_aggregates hp (w : list (Transition State Action)) :
  use_n_step hp = true -> length w = n_step hp ->
  is_Some (preprocess_nstep w (gamma hp)).
Proof.
  intros Hn Hlen. apply use_n_step_gt in Hn.
  destruct (preprocess_nstep_some (gamma hp) w) as (? & ? & _ & _ & Hrun);
    [lia|].
  rewrite Hrun. eauto.
Qed.

(** Lines 93-112 never fail; this is what they change. *)
Lemma collect_some hp ei o a :
  exists g,
    collect hp ei o a = Some g /\
    transition_queue g
    = (if use_n_step hp
       then deque_append (transition_queue a) (built o a)
       else transition_queue a) /\
    step g = (step a + 1)%Z /\
    update_step g = update_step a /\
    count is_sample (trace g) = count is_sample (trace a) /\
    count is_update_model (trace g) = count is_update_model (trace a) /\
    count is_decay_epsilon (trace g) = count is_decay_epsilon (trace a) /\
    added (trace g) = added (trace a) ++ option_list (stored hp o a).
Proof.
  unfold collect, store_transition, stored, built.
  destruct (use_n_step hp) eqn:Hn.
  - destruct (render_train ei); simpl;
      (destruct (decide _) as [Hfull|Hnot];
       [ destruct (full_window_aggregates hp _ Hn Hfull) as [nt Hnt];
         rewrite Hnt; simpl; eexists; split; [reflexivity|]
       | eexists; split; [reflexivity|] ]);
      simpl; autorewrite with trace;
      repeat split; simpl; try reflexivity; try lia.
  - destruct (render_train ei); simpl;
      (eexists; split; [reflexivity|]);
      simpl; autorewrite with trace;
      repeat split; simpl; try reflexivity; try lia.
Qed.

(** Lines 114-129 on a state [g], for a non-zero train frequency. *)
Lemma maybe_update_some hp g :
  train_freq hp <> 0%Z ->
  exists a',
    maybe_update hp g = Some a' /\
    transition_queue a' = transition_queue g /\
    added (trace a') = added (trace g) /\
    (spec_update_due hp g ->
       count is_sample (trace a') = S (count is_sample (trace g)) /\
       count is_update_model (trace a') = S (count is_update_model (trace g)) /\
       count is_decay_epsilon (trace a') = S (count is_decay_epsilon (trace g)) /\
       update_step a' = (update_step g + 1)%Z) /\
    (~ spec_update_due hp g -> a' = g).
Proof.
  intros Hfreq. unfold maybe_update, spec_update_due.
  destruct (decide (update_starting_point hp <= rb_len (replay_buffer g))%Z)
    as [Hwarm|Hcold].
  - destruct (decide (train_freq hp = 0%Z)); [contradiction|].
    destruct (decide (step g mod train_freq hp = 0)%Z) as [Hmod|Hmod].
    + eexists. split; [reflexivity|].
      assert (Hdue : (train_freq hp | step g)%Z)
        by (apply Z.mod_divide; assumption).
      unfold do_update.
      split; [destruct (use_per hp); reflexivity|].
      split; [destruct (use_per hp); simpl; autorewrite with trace;
              reflexivity|].
      split.
      * intros _. destruct (use_per hp); simpl; autorewrite with trace;
          simpl; repeat split; lia.
      * intros Hno. exfalso. apply Hno. split; assumption.
    + eexists. split; [reflexivity|].
      split; [reflexivity|]. split; [reflexivity|]. split.
      * intros [_ Hdiv]. exfalso. apply Hmod.
        apply Z.mod_divide; assumption.
      * reflexivity.
  - eexists. split; [reflexivity|].
    split; [reflexivity|]. split; [reflexivity|]. split.
    + intros [Hwarm _]. contradiction.
    + reflexivity.
Qed.
End Loop.

Section LoopInvariants.
Import CommonUtils Agent.
Context {State Action B : Type}.
Context `{RB : ReplayBuffer B (Transition State Action)}.
Implicit Types (hp : HyperParams) (ei : ExperimentInfo)
  (o : EnvStep State Action) (a g : AgentState State Action B).





End LoopInvariants.

(** ** Claims on [DQNBaseAgent.train] *)

(** C5 (as stated, refuted): with [n_step = 2], the second environment
    step fills the window and stores one aggregated transition; the third
    step, after a single further push, stores another one. *)
Lemma C5_fixed_window_counterexample :
  exists a1 a2 a3,
    Agent.train_iteration AgentExamples.hp2 AgentExamples.ei2
      (AgentExamples.env_step 1 11%nat false) AgentExamples.agent0 = Some a1 /\
    Agent.train_iteration AgentExamples.hp2 AgentExamples.ei2
      (AgentExamples.env_step 2 12%nat false) a1 = Some a2 /\
    Agent.train_iteration AgentExamples.hp2 AgentExamples.ei2
      (AgentExamples.env_step 4 13%nat false) a2 = Some a3 /\
    length (Agent.added (Agent.trace a1)) = 0%nat /\
    length (Agent.added (Agent.trace a2)) = 1%nat /\
    length (Agent.added (Agent.trace a3)) = 2%nat.
Proof.
  eexists. eexists. eexists.
  split; [vm_compute; reflexivity|].
  split; [vm_compute; reflexivity|].
  split; [vm_compute; reflexivity|].
  split; [vm_compute; reflexivity|].
  split; vm_compute; reflexivity.
Qed.

(** C5 (amended): with n-step enabled, once the window holds [n]
    transitions, every further environment step pushes its transition,
    evicts the oldest one, leaves the window full, and stores exactly one
    aggregated transition, that of the slid window. *)
Theorem C5_window_slides
    {State Action B : Type}
    `{RB : Agent.ReplayBuffer B (CommonUtils.Transition State Action)}
    (hp : Agent.HyperParams) (ei : Agent.ExperimentInfo)
    (o : Agent.EnvStep State Action) (a : Agent.AgentState State Action B) :
  Agent.use_n_step hp = true ->
  Agent.train_freq hp <> 0%Z ->
  Agent.queue_full hp a ->
  exists a' nt,
    Agent.train_iteration hp ei o a = Some a' /\
    Agent.queue_full hp a' /\
    Agent.items (Agent.transition_queue a')
    = drop 1 (Agent.items (Agent.transition_queue a)) ++ [Agent.built o a] /\
    CommonUtils.preprocess_nstep (Agent.items (Agent.transition_queue a'))
      (Agent.gamma hp) = Some nt /\
    Agent.added (Agent.trace a') = Agent.added (Agent.trace a) ++ [nt].
Proof.
  intros Hn Hfreq [Hmax Hfull].
  destruct (collect_some hp ei o a)
    as (g & Hg & Hq & _ & _ & _ & _ & _ & Hadd).
  destruct (maybe_update_some hp g Hfreq) as (a' & Ha' & Hq' & Hadd' & _).
  pose proof (use_n_step_gt hp Hn) as Hgt.
  rewrite Hn in Hq.
  assert (Hlen : Agent.deque_len (Agent.transition_queue g) = Agent.n_step hp).
  { rewrite Hq, deque_append_len by lia. lia. }
  destruct (full_window_aggregates hp (Agent.items (Agent.transition_queue g)) Hn Hlen)
    as [nt Hnt].
  exists a', nt. split.
  { unfold Agent.train_iteration. rewrite Hg. exact Ha'. }
  unfold Agent.queue_full. rewrite Hq'. split; [|split; [|split]].
  - split; [|exact Hlen]. rewrite Hq, deque_append_maxlen. exact Hmax.
  - rewrite Hq. apply deque_append_full; lia.
  - exact Hnt.
  - rewrite Hadd', Hadd. unfold Agent.stored. rewrite Hn. cbv zeta.
    rewrite <- Hq. destruct (decide _) as [_|Hne]; [|contradiction].
    rewrite Hnt. reflexivity.
Qed.

Lemma C5_window_slides_witness :
  exists a' nt,
    Agent.train_iteration AgentExamples.hp2 AgentExamples.ei2
      (AgentExamples.env_step 4 13%nat false) AgentExamples.agent_full
    = Some a' /\
    Agent.queue_full AgentExamples.hp2 a' /\
    Agent.items (Agent.transition_queue a')
    = drop 1 (Agent.items (Agent.transition_queue AgentExamples.agent_full))
      ++ [Agent.built (AgentExamples.env_step 4 13%nat false)
            AgentExamples.agent_full] /\
    CommonUtils.preprocess_nstep (Agent.items (Agent.transition_queue a'))
      (Agent.gamma AgentExamples.hp2) = Some nt /\
    Agent.added (Agent.trace a')
    = Agent.added (Agent.trace AgentExamples.agent_full) ++ [nt].
Proof.
  apply (C5_window_slides AgentExamples.hp2 AgentExamples.ei2
           (AgentExamples.env_step 4 13%nat false) AgentExamples.agent_full).
  - reflexivity.
  - simpl. lia.
  - split; reflexivity.
Defined.

(** C6: in one pass of the loop of [train] (with a non-zero train
    frequency), the model update - one [sample], one [update_model], the
    update-step increment - fires exactly when, after the transition has
    been stored and the step counted, the buffer length has reached
    [update_starting_point] and the step counter is a multiple of
    [train_freq]; epsilon is decayed once when the update fires and not at
    all otherwise. *)
Theorem C6_update_gate
    {State Action B : Type}
    `{RB : Agent.ReplayBuffer B (CommonUtils.Transition State Action)}
    (hp : Agent.HyperParams) (ei : Agent.ExperimentInfo)
    (o : Agent.EnvStep State Action) (a : Agent.AgentState State Action B) :
  Agent.train_freq hp <> 0%Z ->
  exists g a',
    Agent.collect hp ei o a = Some g /\
    Agent.train_iteration hp ei o a = Some a' /\
    (Agent.spec_update_due hp g ->
       Agent.count Agent.is_sample (Agent.trace a')
       = S (Agent.count Agent.is_sample (Agent.trace a)) /\
       Agent.count Agent.is_update_model (Agent.trace a')
       = S (Agent.count Agent.is_update_model (Agent.trace a)) /\
       Agent.update_step a' = (Agent.update_step a + 1)%Z /\
       Agent.count Agent.is_decay_epsilon (Agent.trace a')
       = S (Agent.count Agent.is_decay_epsilon (Agent.trace a))) /\
    (~ Agent.spec_update_due hp g ->
       Agent.count Agent.is_sample (Agent.trace a')
       = Agent.count Agent.is_sample (Agent.trace a) /\
       Agent.count Agent.is_update_model (Agent.trace a')
       = Agent.count Agent.is_update_model (Agent.trace a) /\
       Agent.update_step a' = Agent.update_step a /\
       Agent.count Agent.is_decay_epsilon (Agent.trace a')
       = Agent.count Agent.is_decay_epsilon (Agent.trace a)).
Proof.
  intros Hfreq.
  destruct (collect_some hp ei o a)
    as (g & Hg & _ & _ & Hus & Hcs & Hcu & Hcd & _).
  destruct (maybe_update_some hp g Hfreq)
    as (a' & Ha' & _ & _ & Hdue & Hnot).
  exists g, a'. split; [exact Hg|]. split.
  { unfold Agent.train_iteration. rewrite Hg. exact Ha'. }
  split.
  - intros H. destruct (Hdue H) as (H1 & H2 & H3 & H4).
    rewrite H1, H2, H3, H4, Hcs, Hcu, Hcd, Hus. auto.
  - intros H. rewrite (Hnot H). auto.
Qed.

Lemma C6_update_gate_witness :
  exists g a',
    Agent.collect AgentExamples.hp2 AgentExamples.ei2
      (AgentExamples.env_step 4 13%nat false) AgentExamples.agent_full = Some g /\
    Agent.train_iteration AgentExamples.hp2 AgentExamples.ei2
      (AgentExamples.env_step 4 13%nat false) AgentExamples.agent_full = Some a' /\
    (Agent.spec_update_due AgentExamples.hp2 g ->
       Agent.count Agent.is_sample (Agent.trace a')
       = S (Agent.count Agent.is_sample (Agent.trace AgentExamples.agent_full)) /\
       Agent.count Agent.is_update_model (Agent.trace a')
       = S (Agent.count Agent.is_update_model (Agent.trace AgentExamples.agent_full)) /\
       Agent.update_step a' = (Agent.update_step AgentExamples.agent_full + 1)%Z /\
       Agent.count Agent.is_decay_epsilon (Agent.trace a')
       = S (Agent.count Agent.is_decay_epsilon (Agent.trace AgentExamples.agent_full))) /\
    (~ Agent.spec_update_due AgentExamples.hp2 g ->
       Agent.count Agent.is_sample (Agent.trace a')
       = Agent.count Agent.is_sample (Agent.trace AgentExamples.agent_full) /\
       Agent.count Agent.is_update_model (Agent.trace a')
       = Agent.count Agent.is_update_model (Agent.trace AgentExamples.agent_full) /\
       Agent.update_step a' = Agent.update_step AgentExamples.agent_full /\
       Agent.count Agent.is_decay_epsilon (Agent.trace a')
       = Agent.count Agent.is_decay_epsilon (Agent.trace AgentExamples.agent_full)).
Proof.
  apply (C6_update_gate AgentExamples.hp2 AgentExamples.ei2
           (AgentExamples.env_step 4 13%nat false) AgentExamples.agent_full).
  simpl. lia.
Defined.



(** ** Further properties of the training loop *)

Section LoopExtras.
Import CommonUtils Agent.
Context {State Action B : Type}.
Context `{RB : ReplayBuffer B (Transition State Action)}.
Implicit Types (hp : HyperParams) (ei : ExperimentInfo)
  (o : EnvStep State Action) (a g : AgentState State Action B).

Lemma deque_append_not_full {A : Type} (d : Deque A) (x : A) :
  (deque_len d < maxlen d)%nat ->
  items (deque_append d x) = items d ++ [x].
Proof.
  unfold deque_append, deque_len. intros Hlt.
  destruct (decide (maxlen d = O)); [lia|].
  destruct (decide (length (items d) = maxlen d)); [lia|reflexivity].
Qed.

(** Lines 93-112 keep the counters in step with the trace. *)
Lemma collect_counters hp ei o a g :
  collect hp ei o a = Some g -> counters_ok hp a -> counters_ok hp g.
Proof.
  unfold collect, store_transition, counters_ok.
  intros H (H1 & H2 & H3 & H4 & H5).
  destruct (use_n_step hp); destruct (render_train ei); simpl in H;
    repeat (destruct (decide _) in H; simpl in H);
    repeat (destruct (preprocess_nstep _ _) in H; simpl in H);
    try discriminate; injection H as <-; simpl;
    autorewrite with trace; simpl;
    rewrite ?Nat.add_0_r, ?H2, ?H3, ?H4;
    (repeat split; try reflexivity; try lia).
Qed.

(** Lines 114-129 keep the counters in step with the trace. *)
Lemma maybe_update_counters hp g a' :
  maybe_update hp g = Some a' -> counters_ok hp g -> counters_ok hp a'.
Proof.
  unfold maybe_update, do_update, counters_ok.
  intros H (H1 & H2 & H3 & H4 & H5).
  repeat (destruct (decide _) in H; try discriminate);
    injection H as <-; [|auto|auto].
  destruct (use_per hp); simpl; autorewrite with trace; simpl;
    rewrite ?Nat.add_0_r, ?H2, ?H3, ?H4;
    (repeat split; try reflexivity; try lia).
Qed.

Lemma train_iteration_counters hp ei o a a' :
  train_iteration hp ei o a = Some a' -> counters_ok hp a -> counters_ok hp a'.
Proof.
  unfold train_iteration. intros H Hok.
  destruct (collect hp ei o a) as [g|] eqn:Eg; [|discriminate]. simpl in H.
  eapply maybe_update_counters; [exact H|].
  eapply collect_counters; eauto.
Qed.

Lemma episode_loop_counters hp ei script a a' :
  episode_loop hp ei script a = Some a' -> counters_ok hp a -> counters_ok hp a'.
Proof.
  revert a. induction script as [|o script IH]; intros a H Hok; [discriminate|].
  simpl in H.
  destruct (train_iteration hp ei o a) as [a1|] eqn:E1; [|discriminate].
  simpl in H. pose proof (train_iteration_counters _ _ _ _ _ E1 Hok) as Hok1.
  destruct (e_done o); [injection H as <-; exact Hok1|eauto].
Qed.

Lemma episode_start_counters hp (s0 : State) a :
  counters_ok hp a -> counters_ok hp (episode_start s0 a).
Proof.
  unfold episode_start, counters_ok. intros (H1 & H2 & H3 & H4 & H5). simpl.
  autorewrite with trace. simpl. rewrite ?Nat.add_0_r.
  repeat split; assumption.
Qed.

Lemma episode_end_counters hp ei (k : Z) a a' :
  episode_end ei k a = Some a' -> counters_ok hp a -> counters_ok hp a'.
Proof.
  unfold episode_end, counters_ok. intros H (H1 & H2 & H3 & H4 & H5).
  repeat (destruct (decide _) in H; try discriminate);
    injection H as <-; destruct (log_wandb ei); simpl;
    autorewrite with trace; simpl; rewrite ?Nat.add_0_r;
    repeat split; assumption.
Qed.

Lemma episodes_counters hp ei (k : Z) scripts a a' :
  episodes hp ei k scripts a = Some a' -> counters_ok hp a -> counters_ok hp a'.
Proof.
  revert k a. induction scripts as [|ep scripts IH]; intros k a H Hok.
  - injection H as <-. exact Hok.
  - simpl in H.
    destruct (episode_loop hp ei (steps ep) (episode_start (init_state ep) a))
      as [a1|] eqn:E1; [|discriminate]. simpl in H.
    destruct (episode_end ei k a1) as [a2|] eqn:E2; [|discriminate].
    simpl in H. apply (IH _ a2 H).
    eapply episode_end_counters; [exact E2|].
    eapply episode_loop_counters; [exact E1|].
    apply episode_start_counters. exact Hok.
Qed.

End LoopExtras.

(** X14: with n-step disabled ([n_step <= 1]), every environment step
    passes exactly its own transition to [replay_buffer.add] and leaves the
    transition queue untouched. *)
Theorem one_step_stores_raw_transition
    {State Action B : Type}
    `{RB : Agent.ReplayBuffer B (CommonUtils.Transition State Action)}
    (hp : Agent.HyperParams) (ei : Agent.ExperimentInfo)
    (o : Agent.EnvStep State Action) (a : Agent.AgentState State Action B) :
  Agent.use_n_step hp = false ->
  Agent.train_freq hp <> 0%Z ->
  exists a',
    Agent.train_iteration hp ei o a = Some a' /\
    Agent.transition_queue a' = Agent.transition_queue a /\
    Agent.added (Agent.trace a')
    = Agent.added (Agent.trace a) ++ [Agent.built o a].
Proof.
  intros Hn Hfreq.
  destruct (collect_some hp ei o a)
    as (g & Hg & Hq & _ & _ & _ & _ & _ & Hadd).
  destruct (maybe_update_some hp g Hfreq) as (a' & Ha' & Hq' & Hadd' & _).
  exists a'. split.
  { unfold Agent.train_iteration. rewrite Hg. exact Ha'. }
  rewrite Hq', Hq, Hadd', Hadd. unfold Agent.stored. rewrite Hn. auto.
Qed.

Lemma one_step_stores_raw_transition_witness :
  exists a',
    Agent.train_iteration (Agent.mkHyperParams 1 (1 # 2) 1 1 false)
      AgentExamples.ei2 (AgentExamples.env_step 4 13%nat false)
      AgentExamples.agent_full = Some a' /\
    Agent.transition_queue a' = Agent.transition_queue AgentExamples.agent_full /\
    Agent.added (Agent.trace a')
    = Agent.added (Agent.trace AgentExamples.agent_full)
      ++ [Agent.built (AgentExamples.env_step 4 13%nat false)
            AgentExamples.agent_full].
Proof.
  apply (one_step_stores_raw_transition
           (Agent.mkHyperParams 1 (1 # 2) 1 1 false) AgentExamples.ei2
           (AgentExamples.env_step 4 13%nat false) AgentExamples.agent_full).
  - reflexivity.
  - simpl. lia.
Defined.

(** X15: with n-step enabled, while the window holds fewer than [n_step]
    transitions an environment step appends its transition to the window;
    nothing is stored unless this push fills the window, in which case the
    aggregate of the filled window is stored. *)
Theorem window_fills_before_storing
    {State Action B : Type}
    `{RB : Agent.ReplayBuffer B (CommonUtils.Transition State Action)}
    (hp : Agent.HyperParams) (ei : Agent.ExperimentInfo)
    (o : Agent.EnvStep State Action) (a : Agent.AgentState State Action B) :
  Agent.use_n_step hp = true ->
  Agent.train_freq hp <> 0%Z ->
  Agent.maxlen (Agent.transition_queue a) = Agent.n_step hp ->
  (Agent.deque_len (Agent.transition_queue a) < Agent.n_step hp)%nat ->
  exists a',
    Agent.train_iteration hp ei o a = Some a' /\
    Agent.items (Agent.transition_queue a')
    = Agent.items (Agent.transition_queue a) ++ [Agent.built o a] /\
    ((S (Agent.deque_len (Agent.transition_queue a)) < Agent.n_step hp)%nat ->
     Agent.added (Agent.trace a') = Agent.added (Agent.trace a)) /\
    (S (Agent.deque_len (Agent.transition_queue a)) = Agent.n_step hp ->
     exists nt,
       CommonUtils.preprocess_nstep
         (Agent.items (Agent.transition_queue a) ++ [Agent.built o a])
         (Agent.gamma hp) = Some nt /\
       Agent.added (Agent.trace a') = Agent.added (Agent.trace a) ++ [nt]).
Proof.
  intros Hn Hfreq Hmax Hlt.
  destruct (collect_some hp ei o a)
    as (g & Hg & Hq & _ & _ & _ & _ & _ & Hadd).
  destruct (maybe_update_some hp g Hfreq) as (a' & Ha' & Hq' & Hadd' & _).
  rewrite Hn in Hq.
  assert (Hitems : Agent.items (Agent.deque_append (Agent.transition_queue a)
                                  (Agent.built o a))
                   = Agent.items (Agent.transition_queue a) ++ [Agent.built o a]).
  { apply deque_append_not_full. lia. }
  assert (Hlen : Agent.deque_len (Agent.deque_append (Agent.transition_queue a)
                                    (Agent.built o a))
                 = S (Agent.deque_len (Agent.transition_queue a))).
  { unfold Agent.deque_len at 1. rewrite Hitems, length_app. simpl.
    unfold Agent.deque_len. lia. }
  exists a'. split.
  { unfold Agent.train_iteration. rewrite Hg. exact Ha'. }
  rewrite Hq', Hq, Hadd', Hadd. split; [exact Hitems|].
  unfold Agent.stored. rewrite Hn. cbv zeta. rewrite Hlen, Hitems. split.
  - intros Hsmall. destruct (decide _) as [Heq|_]; [lia|].
    simpl. apply app_nil_r.
  - intros Hfill. destruct (decide _) as [_|Hne]; [|contradiction].
    destruct (full_window_aggregates hp
                (Agent.items (Agent.transition_queue a) ++ [Agent.built o a]) Hn)
      as [nt Hnt].
    { rewrite length_app. simpl. unfold Agent.deque_len in Hfill. lia. }
    exists nt. split; [exact Hnt|]. rewrite Hnt. reflexivity.
Qed.

Lemma window_fills_before_storing_witness :
  exists a',
    Agent.train_iteration AgentExamples.hp2 AgentExamples.ei2
      (AgentExamples.env_step 1 11%nat false) AgentExamples.agent0 = Some a' /\
    Agent.items (Agent.transition_queue a')
    = Agent.items (Agent.transition_queue AgentExamples.agent0)
      ++ [Agent.built (AgentExamples.env_step 1 11%nat false)
            AgentExamples.agent0] /\
    ((S (Agent.deque_len (Agent.transition_queue AgentExamples.agent0))
      < Agent.n_step AgentExamples.hp2)%nat ->
     Agent.added (Agent.trace a')
     = Agent.added (Agent.trace AgentExamples.agent0)) /\
    (S (Agent.deque_len (Agent.transition_queue AgentExamples.agent0))
     = Agent.n_step AgentExamples.hp2 ->
     exists nt,
       CommonUtils.preprocess_nstep
         (Agent.items (Agent.transition_queue AgentExamples.agent0)
          ++ [Agent.built (AgentExamples.env_step 1 11%nat false)
                AgentExamples.agent0])
         (Agent.gamma AgentExamples.hp2) = Some nt /\
       Agent.added (Agent.trace a')
       = Agent.added (Agent.trace AgentExamples.agent0) ++ [nt]).
Proof.
  apply (window_fills_before_storing AgentExamples.hp2 AgentExamples.ei2
           (AgentExamples.env_step 1 11%nat false) AgentExamples.agent0).
  - reflexivity.
  - simpl. lia.
  - reflexivity.
  - unfold Agent.deque_len. simpl. lia.
Defined.

(** X16: with [train_freq = 0] the loop pass still collects and stores
    the transition, and then fails ([step % train_freq] divides by zero)
    exactly when the buffer has reached [update_starting_point]; before
    that it completes without an update. *)
Theorem zero_train_freq_fails_when_warm
    {State Action B : Type}
    `{RB : Agent.ReplayBuffer B (CommonUtils.Transition State Action)}
    (hp : Agent.HyperParams) (ei : Agent.ExperimentInfo)
    (o : Agent.EnvStep State Action) (a : Agent.AgentState State Action B) :
  Agent.train_freq hp = 0%Z ->
  exists g,
    Agent.collect hp ei o a = Some g /\
    (Agent.train_iteration hp ei o a = None <->
     (Agent.update_starting_point hp
      <= Agent.rb_len (Agent.replay_buffer g))%Z) /\
    (~ (Agent.update_starting_point hp
        <= Agent.rb_len (Agent.replay_buffer g))%Z ->
     Agent.train_iteration hp ei o a = Some g).
Proof.
  intros Hz. destruct (collect_some hp ei o a) as (g & Hg & _).
  exists g. split; [exact Hg|].
  unfold Agent.train_iteration. rewrite Hg. simpl. unfold Agent.maybe_update.
  destruct (decide (Agent.update_starting_point hp
                    <= Agent.rb_len (Agent.replay_buffer g))%Z) as [Hw|Hc].
  - destruct (decide (Agent.train_freq hp = 0%Z)); [|contradiction].
    split; [tauto|]. intros Hn. contradiction.
  - split; [|reflexivity]. split; [discriminate|contradiction].
Qed.

Lemma zero_train_freq_fails_when_warm_witness :
  exists g,
    Agent.collect (Agent.mkHyperParams 2 (1 # 2) 1 0 false) AgentExamples.ei2
      (AgentExamples.env_step 4 13%nat false) AgentExamples.agent_full
    = Some g /\
    (Agent.train_iteration (Agent.mkHyperParams 2 (1 # 2) 1 0 false)
       AgentExamples.ei2 (AgentExamples.env_step 4 13%nat false)
       AgentExamples.agent_full = None <->
     (Agent.update_starting_point (Agent.mkHyperParams 2 (1 # 2) 1 0 false)
      <= Agent.rb_len (Agent.replay_buffer g))%Z) /\
    (~ (Agent.update_starting_point (Agent.mkHyperParams 2 (1 # 2) 1 0 false)
        <= Agent.rb_len (Agent.replay_buffer g))%Z ->
     Agent.train_iteration (Agent.mkHyperParams 2 (1 # 2) 1 0 false)
       AgentExamples.ei2 (AgentExamples.env_step 4 13%nat false)
       AgentExamples.agent_full = Some g).
Proof.
  apply (zero_train_freq_fails_when_warm
           (Agent.mkHyperParams 2 (1 # 2) 1 0 false) AgentExamples.ei2
           (AgentExamples.env_step 4 13%nat false) AgentExamples.agent_full).
  reflexivity.
Defined.

(** X17: with [test_interval = 0] the end of every episode fails
    ([episode_i % test_interval] divides by zero), so [train] never returns
    normally when at least one episode is to be run. *)
Theorem zero_test_interval_aborts
    {State Action B : Type}
    `{RB : Agent.ReplayBuffer B (CommonUtils.Transition State Action)}
    (hp : Agent.HyperParams) (ei : Agent.ExperimentInfo)
    (scripts : list (Agent.Episode State Action))
    (a : Agent.AgentState State Action B) :
  Agent.test_interval ei = 0%Z ->
  (0 < Agent.total_num_episodes ei)%nat ->
  scripts <> [] ->
  (forall (k : Z) (a1 : Agent.AgentState State Action B),
      Agent.episode_end ei k a1 = None) /\
  Agent.train hp ei scripts a = None.
Proof.
  intros Hz Hpos Hne.
  assert (Hend : forall (k : Z) (a1 : Agent.AgentState State Action B),
             Agent.episode_end ei k a1 = None).
  { intros k a1. unfold Agent.episode_end.
    destruct (decide (Agent.test_interval ei = 0%Z)); [reflexivity|contradiction]. }
  split; [exact Hend|].
  unfold Agent.train.
  destruct scripts as [|ep scripts]; [contradiction|].
  destruct (Agent.total_num_episodes ei) as [|n]; [lia|]. simpl.
  destruct (Agent.episode_loop hp ei (Agent.steps ep) _) as [a1|];
    [|reflexivity].
  simpl. rewrite Hend. reflexivity.
Qed.

Lemma zero_test_interval_aborts_witness :
  (forall (k : Z)
          (a1 : Agent.AgentState nat nat (list (CommonUtils.Transition nat nat))),
      Agent.episode_end (Agent.mkExperimentInfo 2 false false 0) k a1 = None) /\
  Agent.train AgentExamples.hp2 (Agent.mkExperimentInfo 2 false false 0)
    AgentExamples.two_episodes AgentExamples.agent0 = None.
Proof.
  apply (zero_test_interval_aborts AgentExamples.hp2
           (Agent.mkExperimentInfo 2 false false 0)
           AgentExamples.two_episodes AgentExamples.agent0).
  - reflexivity.
  - simpl. lia.
  - discriminate.
Defined.

(** X18: after any run of [train] from a freshly constructed agent,
    [update_step] is the number of [update_model] calls, there has been
    exactly one [sample] and one [decay_epsilon] per [update_model],
    [update_priorities] was called once per [update_model] with PER and
    never without, and the step counter is the number of [env.step]
    calls. *)
Theorem train_counters_match_calls
    {State Action B : Type}
    `{RB : Agent.ReplayBuffer B (CommonUtils.Transition State Action)}
    (hp : Agent.HyperParams) (ei : Agent.ExperimentInfo)
    (scripts : list (Agent.Episode State Action))
    (b : B) (s0 : State) (a' : Agent.AgentState State Action B) :
  Agent.train hp ei scripts (Agent.init hp b s0) = Some a' ->
  Agent.update_step a'
  = Z.of_nat (Agent.count Agent.is_update_model (Agent.trace a')) /\
  Agent.count Agent.is_sample (Agent.trace a')
  = Agent.count Agent.is_update_model (Agent.trace a') /\
  Agent.count Agent.is_decay_epsilon (Agent.trace a')
  = Agent.count Agent.is_update_model (Agent.trace a') /\
  Agent.count Agent.is_update_priorities (Agent.trace a')
  = (if Agent.use_per hp
     then Agent.count Agent.is_update_model (Agent.trace a') else O) /\
  Agent.step a' = Z.of_nat (Agent.count Agent.is_env_step (Agent.trace a')).
Proof.
  intros Hrun. unfold Agent.train in Hrun.
  apply (episodes_counters hp ei 0%Z _ _ _ Hrun).
  unfold Agent.counters_ok, Agent.init. simpl.
  destruct (Agent.use_per hp); repeat split; reflexivity.
Qed.

Lemma train_counters_match_calls_witness :
  exists a',
    Agent.train AgentExamples.hp2 AgentExamples.ei2 AgentExamples.two_episodes
      AgentExamples.agent0 = Some a' /\
    Agent.update_step a'
    = Z.of_nat (Agent.count Agent.is_update_model (Agent.trace a')) /\
    Agent.step a' = Z.of_nat (Agent.count Agent.is_env_step (Agent.trace a')).
Proof.
  destruct (Agent.train AgentExamples.hp2 AgentExamples.ei2
              AgentExamples.two_episodes AgentExamples.agent0)
    as [a'|] eqn:E.
  - exists a'. split; [reflexivity|].
    destruct (train_counters_match_calls AgentExamples.hp2 AgentExamples.ei2
                AgentExamples.two_episodes [] 10%nat a' E)
      as (H1 & _ & _ & _ & H5).
    split; [exact H1|exact H5].
  - vm_compute in E. discriminate.
Defined.

(** X19: at the end of episode [k] (for a non-zero [test_interval]) the
    agent evaluates the policy and saves the parameters exactly when
    [test_interval] divides [k]; in particular always after the first
    episode ([k = 0]). *)
Theorem evaluation_schedule
    {State Action B : Type}
    `{RB : Agent.ReplayBuffer B (CommonUtils.Transition State Action)}
    (ei : Agent.ExperimentInfo) (k : Z)
    (a : Agent.AgentState State Action B) :
  Agent.test_interval ei <> 0%Z ->
  exists a',
    Agent.episode_end ei k a = Some a' /\
    ((Agent.test_interval ei | k)%Z ->
       Agent.count Agent.is_test (Agent.trace a')
       = S (Agent.count Agent.is_test (Agent.trace a)) /\
       Agent.count Agent.is_save_params (Agent.trace a')
       = S (Agent.count Agent.is_save_params (Agent.trace a))) /\
    (~ (Agent.test_interval ei | k)%Z ->
       Agent.count Agent.is_test (Agent.trace a')
       = Agent.count Agent.is_test (Agent.trace a) /\
       Agent.count Agent.is_save_params (Agent.trace a')
       = Agent.count Agent.is_save_params (Agent.trace a)) /\
    (k = 0%Z ->
       Agent.count Agent.is_test (Agent.trace a')
       = S (Agent.count Agent.is_test (Agent.trace a))).
Proof.
  intros Hne. unfold Agent.episode_end.
  destruct (decide (Agent.test_interval ei = 0%Z)); [contradiction|].
  destruct (decide (k mod Agent.test_interval ei = 0)%Z) as [Hmod|Hmod].
  - assert (Hdiv : (Agent.test_interval ei | k)%Z)
      by (apply Z.mod_divide; assumption).
    eexists. split; [reflexivity|].
    assert (Hcount :
      forall tr : list (Agent.Event (CommonUtils.Transition State Action)),
        tr = Agent.trace
               (Agent.emit Agent.EvSaveParams
                  (if Agent.log_wandb ei
                   then Agent.emit Agent.EvWriteLog
                          (Agent.emit Agent.EvTest
                             (if Agent.log_wandb ei
                              then Agent.emit Agent.EvWriteLog
                                     (Agent.emit Agent.EvPrint a)
                              else Agent.emit Agent.EvPrint a))
                   else Agent.emit Agent.EvTest
                          (if Agent.log_wandb ei
                           then Agent.emit Agent.EvWriteLog
                                  (Agent.emit Agent.EvPrint a)
                           else Agent.emit Agent.EvPrint a))) ->
        Agent.count Agent.is_test tr = S (Agent.count Agent.is_test (Agent.trace a)) /\
        Agent.count Agent.is_save_params tr
        = S (Agent.count Agent.is_save_params (Agent.trace a))).
    { intros tr ->. destruct (Agent.log_wandb ei); simpl;
        autorewrite with trace; simpl; split; lia. }
    destruct (Hcount _ eq_refl) as [Ht Hs].
    split; [intros _; split; [exact Ht|exact Hs]|].
    split; [intros Hn; contradiction|]. intros _. exact Ht.
  - assert (Hnd : ~ (Agent.test_interval ei | k)%Z).
    { intros Hd. apply Hmod. apply Z.mod_divide; assumption. }
    eexists. split; [reflexivity|].
    split; [intros Hd; contradiction|].
    assert (Hcount :
      Agent.count Agent.is_test
        (Agent.trace (if Agent.log_wandb ei
                      then Agent.emit Agent.EvWriteLog (Agent.emit Agent.EvPrint a)
                      else Agent.emit Agent.EvPrint a))
      = Agent.count Agent.is_test (Agent.trace a) /\
      Agent.count Agent.is_save_params
        (Agent.trace (if Agent.log_wandb ei
                      then Agent.emit Agent.EvWriteLog (Agent.emit Agent.EvPrint a)
                      else Agent.emit Agent.EvPrint a))
      = Agent.count Agent.is_save_params (Agent.trace a)).
    { destruct (Agent.log_wandb ei); simpl; autorewrite with trace; simpl;
        split; lia. }
    split; [intros _; exact Hcount|].
    intros ->. exfalso. apply Hmod. apply Z.mod_0_l. exact Hne.
Qed.

Lemma evaluation_schedule_witness :
  exists a',
    Agent.episode_end AgentExamples.ei2 0%Z AgentExamples.agent_full = Some a' /\
    Agent.count Agent.is_test (Agent.trace a')
    = S (Agent.count Agent.is_test (Agent.trace AgentExamples.agent_full)).
Proof.
  destruct (evaluation_schedule AgentExamples.ei2 0%Z AgentExamples.agent_full)
    as (a' & Hrun & _ & _ & H0).
  { simpl. lia. }
  exists a'. split; [exact Hrun|]. apply H0. reflexivity.
Defined.
